(** * botutil.Actions: the action-batching queue of a go-sc2ai bot

    A shallow embedding of [botutil/actions.go].  The Go program is
    imperative: an [*Actions] value lives on the heap, the methods have
    pointer receivers, the transport ([client.AgentInfo]) and the registered
    error handler are closures with effects of their own.  The embedding
    keeps that shape:

    - a [World] holds the heap of [Actions] objects, the state of everything
    outside the queue ([Ext]: the connection, the logger, whatever a
    handler closure captured) and a ghost [trace] of the calls made to the
    two collaborators;
    - every method is a computation in the monad [M], which threads the
    world and stops at the first panic (nil dereference, index out of
    range), keeping the world as it was at that point. *)

From Stdlib Require Import ZArith NArith String List Lia.
From stdpp Require Import base option numbers list gmap.

Set Default Proof Using "Type".

(** ** The api package: the protocol messages this file builds *)

Module api.

(** [type UnitTag uint64], [type AbilityID int32], [type ActionResult int32]. *)
Definition UnitTag := N.
Definition AbilityID := Z.
Definition ActionResult := Z.

Inductive ActionChat_Channel := ActionChat_Broadcast | ActionChat_Team.

Record ActionChat := {
  Channel : ActionChat_Channel;
  Message : string
}.

(** The geometry messages, [Point2D.ToPoint] and the enum constant
    [ActionResult_Success] are declared in the api package; this file only
    passes points along and compares results with the constant, so they are
    taken as an interface. *)
Class Decls := {
  Point2D : Type;
  Point : Type;
  ToPoint : Point2D -> Point;
  ActionResult_Success : ActionResult
}.

Section Messages.
Context `{Decls}.

(** A Go pointer to a message is an [option]: [None] is [nil]. *)
Record ActionRawCameraMove := {
  CenterWorldSpace : option Point
}.

(** The oneof [ActionRawUnitCommand.Target]. *)
Inductive isActionRawUnitCommand_Target :=
| ActionRawUnitCommand_TargetWorldSpacePos (TargetWorldSpacePos : option Point2D)
| ActionRawUnitCommand_TargetUnitTag (TargetUnitTag : UnitTag).

Record ActionRawUnitCommand := {
  AbilityId : AbilityID;
  Target : option isActionRawUnitCommand_Target;
  UnitTags : list UnitTag
}.

(** The oneof [ActionRaw.Action]. *)
Inductive isActionRaw_Action :=
| ActionRaw_UnitCommand (UnitCommand : option ActionRawUnitCommand)
| ActionRaw_CameraMove (CameraMove : option ActionRawCameraMove).

(** The field is [Action] in Go; the name is taken by the message below. *)
Record ActionRaw := {
  Action_ : option isActionRaw_Action
}.

Record Action := {
  ActionRaw_ : option ActionRaw;
  ActionChat_ : option ActionChat
}.
End Messages.

End api.

Import api.

(** ** The client package: the transport *)

Module client.

(** [client.AgentInfo] is a Go interface.  Its implementation owns the
    connection to the game, which is part of the state outside the queue,
    [Ext].  [SendActions] answers with the results the game gave and the
    new outside state; [OnBeforeStep] registers the [Send] method of the
    queue at the given address as a hook. *)
Class AgentInfoI `{Decls} (Ext : Type) := {
  AgentInfo : Type;
  SendActions : AgentInfo -> list Action -> Ext -> list ActionResult * Ext;
  OnBeforeStep : AgentInfo -> option positive -> Ext -> Ext
}.

End client.

Import client.

(** ** The log package *)

Module log.

(** [log.Print(prefix, r, a)] writes one line: an effect on the outside state. *)
Class Logger `{Decls} (Ext : Type) := {
  Print : string -> ActionResult -> Action -> Ext -> Ext
}.

End log.

(** ** botutil: units (declared in other files of the package) *)

(** Addresses of [Actions] objects; a pointer [*Actions] is nil ([None])
    or an address. *)
Abbreviation loc := positive (only parsing).
Definition ptr := option loc.

(** [type UnitContext struct]: the only field this file reads is [bot]. *)
Record UnitContext := {
  bot : ptr
}.

(** [Unit] and [Units] are declared in unit.go and units.go.  This file
    reads the [ctx] pointer of both and the [raw] slice of a group, and
    calls [IsNil], [GetTag] and [Tags]: they are taken as an interface. *)
Class UnitModel := {
  Unit : Type;
  Units : Type;
  Unit_ctx : Unit -> option UnitContext;
  IsNil : Unit -> bool;
  GetTag : Unit -> UnitTag;
  Units_ctx : Units -> option UnitContext;
  Units_raw : Units -> list Unit;
  Tags : Units -> list UnitTag
}.

(** ** botutil: the queue *)

Section Botutil.
Context `{D : Decls} {Ext : Type} `{AI : !AgentInfoI Ext} `{L : !log.Logger Ext}
  `{UM : UnitModel}.

(** [type ActionErrorHandler func(action *api.Action, result api.ActionResult)].
    A handler is a closure: what it does is an effect on the state it
    captured.  That state is taken to be outside the queues: a handler, like
    the transport, does not call back into the queue it serves while that
    queue is flushing (the bot is single-threaded and a flush is not
    interleaved with anything). *)
Definition ActionErrorHandler := Action -> ActionResult -> Ext -> Ext.

(** [type Actions struct].  [actions] is a slice of pointers to freshly
    built messages that are never nil and never written again, hence a
    list of messages; the nil slice and the empty slice are both [[]].  A
    Go func value may be nil: [errorHandler] is an [option]. *)
Record Actions := mkActions {
  info : AgentInfo;
  actions : list Action;
  errorHandler : option ActionErrorHandler
}.

(** Ghost record of the calls made to the collaborators, oldest first. *)
Inductive Event :=
| EvSendActions (i : AgentInfo) (batch : list Action) (results : list ActionResult)
| EvActionError (action : Action) (result : ActionResult).

Record World := mkWorld {
  heap : gmap loc Actions;
  ext : Ext;
  trace : list Event
}.

Inductive Panic :=
| NilDereference
| IndexOutOfRange (i len : nat).

Inductive Outcome (A : Type) :=
| Returned (x : A) (w : World)
| Panicked (p : Panic) (w : World).
Global Arguments Returned {A} x w.
Global Arguments Panicked {A} p w.

Definition M (A : Type) := World -> Outcome A.

Global Instance M_ret : MRet M := fun A x w => Returned x w.
Global Instance M_bind : MBind M := fun A B f m w =>
  match m w with
  | Returned x w' => f x w'
  | Panicked p w' => Panicked p w'
  end.

Definition panic {A} (p : Panic) : M A := fun w => Panicked p w.

(** The world a call leaves behind, whether it returned or panicked. *)
Definition outcome_world {A} (o : Outcome A) : World :=
  match o with
  | Returned _ w => w
  | Panicked _ w => w
  end.

(** *** Memory and collaborators *)

(** Reading through a pointer: [a.f]. *)
Definition deref (a : ptr) : M Actions := fun w =>
  match a with
  | None => Panicked NilDereference w
  | Some l =>
    match heap w !! l with
    | Some q => Returned q w
    | None => Panicked NilDereference w
    end
  end.

(** Writing one field through a pointer: [a.f = v]. *)
Definition update (a : ptr) (f : Actions -> Actions) : M unit := fun w =>
  match a with
  | None => Panicked NilDereference w
  | Some l =>
    match heap w !! l with
    | Some q => Returned tt (mkWorld (<[l := f q]> (heap w)) (ext w) (trace w))
    | None => Panicked NilDereference w
    end
  end.

Definition set_actions (a : ptr) (v : list Action) : M unit :=
  update a (fun q => mkActions (info q) v (errorHandler q)).

Definition set_errorHandler (a : ptr) (v : option ActionErrorHandler) : M unit :=
  update a (fun q => mkActions (info q) (actions q) v).

(** [&Actions{info: info}]: a new object at an unused address. *)
Definition alloc (q : Actions) : M ptr := fun w =>
  let l := fresh (dom (heap w)) in
  Returned (Some l) (mkWorld (<[l := q]> (heap w)) (ext w) (trace w)).

(** Indexing a slice: [s[i]] panics out of range. *)
Definition index {A} (s : list A) (i : nat) : M A :=
  match s !! i with
  | Some x => mret x
  | None => panic (IndexOutOfRange i (length s))
  end.

(** [i.SendActions(batch)] *)
Definition call_SendActions (i : AgentInfo) (batch : list Action) : M (list ActionResult) :=
  fun w =>
    let (results, e) := SendActions i batch (ext w) in
    Returned results (mkWorld (heap w) e (trace w ++ [EvSendActions i batch results])).

(** [i.OnBeforeStep(a.Send)] *)
Definition call_OnBeforeStep (i : AgentInfo) (a : ptr) : M unit := fun w =>
  Returned tt (mkWorld (heap w) (OnBeforeStep i a (ext w)) (trace w)).

(** Calling a func value; a nil one panics. *)
Definition call_handler (h : option ActionErrorHandler) (action : Action)
    (r : ActionResult) : M unit :=
  match h with
  | None => panic NilDereference
  | Some f => fun w =>
    Returned tt (mkWorld (heap w) (f action r (ext w)) (trace w ++ [EvActionError action r]))
  end.

(** *** The methods of [*Actions] *)

(** [func NewActions(info client.AgentInfo) *Actions] *)
Definition NewActions (i : AgentInfo) : M ptr :=
  a ← alloc (mkActions i [] None);
  call_OnBeforeStep i a;;
  mret a.

(** [func (a *Actions) OnActionError(handler ActionErrorHandler)] *)
Definition OnActionError (a : ptr) (handler : option ActionErrorHandler) : M unit :=
  set_errorHandler a handler.

(** [func (a *Actions) LogActionErrors()] *)
Definition LogActionErrors (a : ptr) : M unit :=
  OnActionError a (Some (fun (a : Action) (r : ActionResult) => log.Print "ActionError: " r a)).

(** The body of [for i, r := range results] in [Send], from index [i] on. *)
Fixpoint Send_range (a : ptr) (i : nat) (results : list ActionResult) : M unit :=
  match results with
  | [] => mret tt
  | r :: rest =>
    (if decide (r ≠ ActionResult_Success) then
       q ← deref a;
       action ← index (actions q) i;
       call_handler (errorHandler q) action r
     else mret tt);;
    Send_range a (S i) rest
  end.

(** [func (a *Actions) Send()] *)
Definition Send (a : ptr) : M unit :=
  q ← deref a;
  if decide (length (actions q) = 0) then mret tt
  else
    results ← call_SendActions (info q) (actions q);
    q' ← deref a;
    (if errorHandler q' is Some _ then Send_range a 0 results else mret tt);;
    set_actions a [].

(** [a.actions = append(a.actions, x)] *)
Definition append_action (a : ptr) (x : Action) : M unit :=
  q ← deref a;
  set_actions a (actions q ++ [x]).

(** [func (a *Actions) Chat(msg string)] *)
Definition Chat (a : ptr) (msg : string) : M unit :=
  append_action a
    {| ActionRaw_ := None;
       ActionChat_ := Some {| Channel := ActionChat_Broadcast; Message := msg |} |}.

(** [func (a *Actions) ChatTeam(msg string)] *)
Definition ChatTeam (a : ptr) (msg : string) : M unit :=
  append_action a
    {| ActionRaw_ := None;
       ActionChat_ := Some {| Channel := ActionChat_Team; Message := msg |} |}.

(** [func (a *Actions) MoveCamera(pt api.Point2D)] *)
Definition MoveCamera (a : ptr) (pt : Point2D) : M unit :=
  let p := ToPoint pt in
  append_action a
    {| ActionRaw_ := Some {| Action_ := Some (ActionRaw_CameraMove
                               (Some {| CenterWorldSpace := Some p |})) |};
       ActionChat_ := None |}.

(** [func (a *Actions) unitOrder(cmd *api.ActionRawUnitCommand)] *)
Definition unitOrder (a : ptr) (cmd : option ActionRawUnitCommand) : M unit :=
  append_action a
    {| ActionRaw_ := Some {| Action_ := Some (ActionRaw_UnitCommand cmd) |};
       ActionChat_ := None |}.

(** [func (a *Actions) unitsOrder(unitTags []api.UnitTag, ability api.AbilityID)] *)
Definition unitsOrder (a : ptr) (unitTags : list UnitTag) (ability : AbilityID) : M unit :=
  if decide (length unitTags = 0) then mret tt
  else
    unitOrder a (Some {| AbilityId := ability;
                         Target := None;
                         UnitTags := unitTags |}).

(** [func (a *Actions) unitsOrderTarget(unitTags []api.UnitTag,
    ability api.AbilityID, target Unit)] *)
Definition unitsOrderTarget (a : ptr) (unitTags : list UnitTag) (ability : AbilityID)
    (target : Unit) : M unit :=
  if decide (length unitTags = 0) then mret tt
  else
    unitOrder a (Some {| AbilityId := ability;
                         Target := Some (ActionRawUnitCommand_TargetUnitTag (GetTag target));
                         UnitTags := unitTags |}).

(** [func (a *Actions) unitsOrderPos(unitTags []api.UnitTag,
    ability api.AbilityID, target *api.Point2D)] *)
Definition unitsOrderPos (a : ptr) (unitTags : list UnitTag) (ability : AbilityID)
    (target : option Point2D) : M unit :=
  if decide (length unitTags = 0) then mret tt
  else
    unitOrder a (Some {| AbilityId := ability;
                         Target := Some (ActionRawUnitCommand_TargetWorldSpacePos target);
                         UnitTags := unitTags |}).

(** [func (a *Actions) UnitOrder(u Unit, ability api.AbilityID)] *)
Definition UnitOrder (a : ptr) (u : Unit) (ability : AbilityID) : M unit :=
  unitsOrder a [GetTag u] ability.

(** [func (a *Actions) UnitOrderTarget(u Unit, ability api.AbilityID, target Unit)] *)
Definition UnitOrderTarget (a : ptr) (u : Unit) (ability : AbilityID) (target : Unit) : M unit :=
  unitsOrderTarget a [GetTag u] ability target.

(** [func (a *Actions) UnitOrderPos(u Unit, ability api.AbilityID, target *api.Point2D)] *)
Definition UnitOrderPos (a : ptr) (u : Unit) (ability : AbilityID)
    (target : option Point2D) : M unit :=
  unitsOrderPos a [GetTag u] ability target.

(** [func (a *Actions) UnitsOrder(units Units, ability api.AbilityID)] *)
Definition UnitsOrder (a : ptr) (units : Units) (ability : AbilityID) : M unit :=
  unitsOrder a (Tags units) ability.

(** [func (a *Actions) UnitsOrderTarget(units Units, ability api.AbilityID, target Unit)] *)
Definition UnitsOrderTarget (a : ptr) (units : Units) (ability : AbilityID)
    (target : Unit) : M unit :=
  unitsOrderTarget a (Tags units) ability target.

(** [func (a *Actions) UnitsOrderPos(units Units, ability api.AbilityID, target *api.Point2D)] *)
Definition UnitsOrderPos (a : ptr) (units : Units) (ability : AbilityID)
    (target : option Point2D) : M unit :=
  unitsOrderPos a (Tags units) ability target.

(** *** The convenience methods of [Units] and [Unit] *)

(** Reading through a [*UnitContext]: [x.ctx.bot]. *)
Definition deref_ctx (c : option UnitContext) : M UnitContext :=
  match c with
  | Some x => mret x
  | None => panic NilDereference
  end.

(** [func (units Units) Order(ability api.AbilityID)] *)
Definition Units_Order (units : Units) (ability : AbilityID) : M unit :=
  if decide (0 < length (Units_raw units)) then
    c ← deref_ctx (Units_ctx units);
    unitsOrder (bot c) (Tags units) ability
  else mret tt.

(** [func (units Units) OrderTarget(ability api.AbilityID, target Unit)] *)
Definition Units_OrderTarget (units : Units) (ability : AbilityID) (target : Unit) : M unit :=
  if decide (0 < length (Units_raw units)) then
    c ← deref_ctx (Units_ctx units);
    unitsOrderTarget (bot c) (Tags units) ability target
  else mret tt.

(** [func (units Units) OrderPos(ability api.AbilityID, target *api.Point2D)] *)
Definition Units_OrderPos (units : Units) (ability : AbilityID)
    (target : option Point2D) : M unit :=
  if decide (0 < length (Units_raw units)) then
    c ← deref_ctx (Units_ctx units);
    unitsOrderPos (bot c) (Tags units) ability target
  else mret tt.

(** [func (u Unit) Order(ability api.AbilityID)] *)
Definition Unit_Order (u : Unit) (ability : AbilityID) : M unit :=
  if negb (IsNil u) then
    c ← deref_ctx (Unit_ctx u);
    UnitOrder (bot c) u ability
  else mret tt.

(** [func (u Unit) OrderTarget(ability api.AbilityID, target Unit)] *)
Definition Unit_OrderTarget (u : Unit) (ability : AbilityID) (target : Unit) : M unit :=
  if negb (IsNil u) then
    c ← deref_ctx (Unit_ctx u);
    UnitOrderTarget (bot c) u ability target
  else mret tt.

(** [func (u Unit) OrderPos(ability api.AbilityID, target *api.Point2D)] *)
Definition Unit_OrderPos (u : Unit) (ability : AbilityID) (target : option Point2D) : M unit :=
  if negb (IsNil u) then
    c ← deref_ctx (Unit_ctx u);
    UnitOrderPos (bot c) u ability target
  else mret tt.

(** *** Calls as data *)

(** One call of an enqueue method of [*Actions], the receiver left out:
    the three public kinds (chat, camera move, unit order on one unit or on
    a group) and the unexported methods they end in. *)
Inductive Call :=
| CallChat (msg : string)
| CallChatTeam (msg : string)
| CallMoveCamera (pt : Point2D)
| CallUnitOrder (u : Unit) (ability : AbilityID)
| CallUnitOrderTarget (u : Unit) (ability : AbilityID) (target : Unit)
| CallUnitOrderPos (u : Unit) (ability : AbilityID) (target : option Point2D)
| CallUnitsOrder (units : Units) (ability : AbilityID)
| CallUnitsOrderTarget (units : Units) (ability : AbilityID) (target : Unit)
| CallUnitsOrderPos (units : Units) (ability : AbilityID) (target : option Point2D)
| Call_unitsOrder (unitTags : list UnitTag) (ability : AbilityID)
| Call_unitsOrderTarget (unitTags : list UnitTag) (ability : AbilityID) (target : Unit)
| Call_unitsOrderPos (unitTags : list UnitTag) (ability : AbilityID) (target : option Point2D)
| Call_unitOrder (cmd : option ActionRawUnitCommand).

Definition call (a : ptr) (c : Call) : M unit :=
  match c with
  | CallChat msg => Chat a msg
  | CallChatTeam msg => ChatTeam a msg
  | CallMoveCamera pt => MoveCamera a pt
  | CallUnitOrder u ability => UnitOrder a u ability
  | CallUnitOrderTarget u ability target => UnitOrderTarget a u ability target
  | CallUnitOrderPos u ability target => UnitOrderPos a u ability target
  | CallUnitsOrder units ability => UnitsOrder a units ability
  | CallUnitsOrderTarget units ability target => UnitsOrderTarget a units ability target
  | CallUnitsOrderPos units ability target => UnitsOrderPos a units ability target
  | Call_unitsOrder unitTags ability => unitsOrder a unitTags ability
  | Call_unitsOrderTarget unitTags ability target => unitsOrderTarget a unitTags ability target
  | Call_unitsOrderPos unitTags ability target => unitsOrderPos a unitTags ability target
  | Call_unitOrder cmd => unitOrder a cmd
  end.

(** A sequence of calls on one receiver, in program order. *)
Fixpoint calls (a : ptr) (cs : list Call) : M unit :=
  match cs with
  | [] => mret tt
  | c :: cs' => call a c;; calls a cs'
  end.

(** One call of a convenience method of [Unit] or [Units]. *)
Inductive UnitCall :=
| CallUnits_Order (units : Units) (ability : AbilityID)
| CallUnits_OrderTarget (units : Units) (ability : AbilityID) (target : Unit)
| CallUnits_OrderPos (units : Units) (ability : AbilityID) (target : option Point2D)
| CallUnit_Order (u : Unit) (ability : AbilityID)
| CallUnit_OrderTarget (u : Unit) (ability : AbilityID) (target : Unit)
| CallUnit_OrderPos (u : Unit) (ability : AbilityID) (target : option Point2D).

Definition unit_call (c : UnitCall) : M unit :=
  match c with
  | CallUnits_Order units ability => Units_Order units ability
  | CallUnits_OrderTarget units ability target => Units_OrderTarget units ability target
  | CallUnits_OrderPos units ability target => Units_OrderPos units ability target
  | CallUnit_Order u ability => Unit_Order u ability
  | CallUnit_OrderTarget u ability target => Unit_OrderTarget u ability target
  | CallUnit_OrderPos u ability target => Unit_OrderPos u ability target
  end.

(** *** Vocabulary of the specification *)

(** The unit identifiers a unit-order call hands to [unitsOrder],
    [unitsOrderTarget] or [unitsOrderPos]; [None] for the calls that take
    no identifiers. *)
Definition order_tags (c : Call) : option (list UnitTag) :=
  match c with
  | CallUnitOrder u _ | CallUnitOrderTarget u _ _ | CallUnitOrderPos u _ _ => Some [GetTag u]
  | CallUnitsOrder units _ | CallUnitsOrderTarget units _ _ | CallUnitsOrderPos units _ _ =>
      Some (Tags units)
  | Call_unitsOrder t _ | Call_unitsOrderTarget t _ _ | Call_unitsOrderPos t _ _ => Some t
  | CallChat _ | CallChatTeam _ | CallMoveCamera _ | Call_unitOrder _ => None
  end.

(** A unit order given no unit at all. *)
Definition empty_order (c : Call) : bool :=
  bool_decide (order_tags c = Some []).

(** The Command of the specification's data model that a call stands for:
    chat-broadcast, chat-team, camera-move, or unit-order with its ability,
    its identifiers and its target (none, a unit, a position). *)
Definition chat_command (channel : ActionChat_Channel) (msg : string) : Action :=
  {| ActionRaw_ := None;
     ActionChat_ := Some {| Channel := channel; Message := msg |} |}.

Definition camera_command (p : Point) : Action :=
  {| ActionRaw_ := Some {| Action_ := Some (ActionRaw_CameraMove
                             (Some {| CenterWorldSpace := Some p |})) |};
     ActionChat_ := None |}.

Definition raw_command (cmd : option ActionRawUnitCommand) : Action :=
  {| ActionRaw_ := Some {| Action_ := Some (ActionRaw_UnitCommand cmd) |};
     ActionChat_ := None |}.

Definition order_command (ids : list UnitTag) (ability : AbilityID)
    (target : option isActionRawUnitCommand_Target) : Action :=
  raw_command (Some {| AbilityId := ability; Target := target; UnitTags := ids |}).

Definition command_of (c : Call) : Action :=
  match c with
  | CallChat msg => chat_command ActionChat_Broadcast msg
  | CallChatTeam msg => chat_command ActionChat_Team msg
  | CallMoveCamera pt => camera_command (ToPoint pt)
  | CallUnitOrder u ab => order_command [GetTag u] ab None
  | CallUnitOrderTarget u ab t =>
      order_command [GetTag u] ab (Some (ActionRawUnitCommand_TargetUnitTag (GetTag t)))
  | CallUnitOrderPos u ab p =>
      order_command [GetTag u] ab (Some (ActionRawUnitCommand_TargetWorldSpacePos p))
  | CallUnitsOrder us ab => order_command (Tags us) ab None
  | CallUnitsOrderTarget us ab t =>
      order_command (Tags us) ab (Some (ActionRawUnitCommand_TargetUnitTag (GetTag t)))
  | CallUnitsOrderPos us ab p =>
      order_command (Tags us) ab (Some (ActionRawUnitCommand_TargetWorldSpacePos p))
  | Call_unitsOrder ids ab => order_command ids ab None
  | Call_unitsOrderTarget ids ab t =>
      order_command ids ab (Some (ActionRawUnitCommand_TargetUnitTag (GetTag t)))
  | Call_unitsOrderPos ids ab p =>
      order_command ids ab (Some (ActionRawUnitCommand_TargetWorldSpacePos p))
  | Call_unitOrder cmd => raw_command cmd
  end.

(** The pending sequence of the queue at [a], if there is a queue there. *)
Definition pending (a : ptr) (w : World) : option (list Action) :=
  l ← a; actions <$> heap w !! l.

(** What a stretch of the trace shows: the commands handed to the
    transport, and the invocations of the error handler. *)
Definition transport_calls (evs : list Event) : list (list Action) :=
  omap (fun ev => match ev with
                  | EvSendActions _ batch _ => Some batch
                  | EvActionError _ _ => None
                  end) evs.

Definition sent_commands (evs : list Event) : list Action :=
  concat (transport_calls evs).




(** The failures of a batch: the commands paired with their results, index
    by index, where the result is not success. *)
Definition reports (batch : list Action) (results : list ActionResult) :
    list (Action * ActionResult) :=
  filter (fun p => p.2 ≠ ActionResult_Success) (zip batch results).

(** The effect of handler [h] run on a sequence of reports, in order. *)
Definition run_handler (h : ActionErrorHandler) (reports : list (Action * ActionResult))
    (e : Ext) : Ext :=
  foldl (fun e' report => h report.1 report.2 e') e reports.

(** What the operations of this file leave alone in every queue: the
    transport reference and the error handler. *)
Definition same_fields (w w' : World) : Prop :=
  forall l : loc,
    info <$> heap w' !! l = info <$> heap w !! l /\
    errorHandler <$> heap w' !! l = errorHandler <$> heap w !! l.


(** *** Programs *)

(** One operation of the package on the world: everything a bot can call. *)
Inductive Op :=
| OpNewActions (i : AgentInfo)
| OpOnActionError (a : ptr) (handler : option ActionErrorHandler)
| OpLogActionErrors (a : ptr)
| OpSend (a : ptr)
| OpCall (a : ptr) (c : Call)
| OpUnitCall (uc : UnitCall).

Definition op (o : Op) : M unit :=
  match o with
  | OpNewActions i => NewActions i;; mret tt
  | OpOnActionError a handler => OnActionError a handler
  | OpLogActionErrors a => LogActionErrors a
  | OpSend a => Send a
  | OpCall a c => call a c
  | OpUnitCall uc => unit_call uc
  end.

(** A program: operations in sequence, cut short by the first panic. *)
Fixpoint ops (os : list Op) : M unit :=
  match os with
  | [] => mret tt
  | o :: os' => op o;; ops os'
  end.

(** No queue is lost and no queue changes its transport reference. *)
Definition info_stable (w w' : World) : Prop :=
  forall l q, heap w !! l = Some q ->
    exists q', heap w' !! l = Some q' /\ info q' = info q.

(** Every batch the trace shows has at least one command. *)
Definition batches_nonempty (w : World) : Prop :=
  Forall (fun batch => batch ≠ []) (transport_calls (trace w)).

(** What an enqueue operation may change is the pending sequences only. *)
Definition frame (w w' : World) : Prop :=
  trace w' = trace w /\ ext w' = ext w /\ same_fields w w'.

End Botutil.

(** ** A concrete bot, to run the definitions on *)

Module demo.

(** Points as pairs of coordinates; [Success] is 1 as in the protocol. *)
#[export] Instance decls : Decls := {|
  Point2D := Z * Z;
  Point := Z * Z * Z;
  ToPoint := fun p => (p.1, p.2, 0%Z);
  ActionResult_Success := 1%Z
|}.

(** The outside state: the answers the game will give to the next batches,
    and the lines reported so far. *)
Record Ext := mkExt {
  script : list (list ActionResult);
  reported : list (string * ActionResult * Action)
}.

(** A transport that answers from the script, and with all successes once
    the script is used up. *)
#[export] Instance agent : AgentInfoI Ext := {|
  AgentInfo := unit;
  SendActions := fun _ batch e =>
    match script e with
    | rs :: rest => (rs, mkExt rest (reported e))
    | [] => (map (fun _ => 1%Z) batch, e)
    end;
  OnBeforeStep := fun _ _ e => e
|}.

#[export] Instance logger : log.Logger Ext := {|
  log.Print := fun prefix r a e => mkExt (script e) (reported e ++ [(prefix, r, a)])
|}.

(** A unit is an optional tag with its context; a group is a slice of units. *)
#[export] Instance units : UnitModel := {|
  Unit := option UnitContext * option UnitTag;
  Units := option UnitContext * list (option UnitContext * option UnitTag);
  Unit_ctx := fun u => u.1;
  IsNil := fun u => if u.2 is Some _ then false else true;
  GetTag := fun u => default 0%N u.2;
  Units_ctx := fun us => us.1;
  Units_raw := fun us => us.2;
  Tags := fun us => map (fun u => default 0%N u.2) us.2
|}.

(** Two handlers that tag what they report. *)
Definition report (tag : string) : ActionErrorHandler (Ext := Ext) :=
  fun a r e => mkExt (script e) (reported e ++ [(tag, r, a)]).

(** A world with one empty queue at address 1, no handler, and a game that
    will answer as scripted. *)
Definition queue0 : Actions := mkActions tt [] None.

Definition world0 (answers : list (list ActionResult)) : World :=
  mkWorld {[ 1%positive := queue0 ]} (mkExt answers []) [].

Definition bot0 : ptr := Some 1%positive.

Definition ctx0 : option UnitContext := Some {| bot := bot0 |}.

Definition chat (msg : string) : Action := chat_command ActionChat_Broadcast msg.

(** A queue with three chats pending and the given handler, and the world
    that holds it at address 1. *)
Definition queue3 (handler : option (ActionErrorHandler (Ext := Ext))) : Actions :=
  mkActions tt [chat "a"; chat "b"; chat "c"] handler.

Definition world3 (handler : option (ActionErrorHandler (Ext := Ext)))
    (answers : list (list ActionResult)) : World :=
  mkWorld {[ 1%positive := queue3 handler ]} (mkExt answers []) [].

(** The same with handler "h" registered and a game that fails the first
    and the third command; and with no handler. *)
Definition queue_h : Actions := queue3 (Some (report "h")).
Definition world_h : World := world3 (Some (report "h")) [[2%Z; 1%Z; 3%Z]].
Definition queue_n : Actions := queue3 None.
Definition world_n : World := world3 None [[2%Z; 1%Z; 3%Z]].

(** A nil unit, a unit with tag 7, a group without units, a group of two. *)
Definition nil_unit : Unit := (None, None).
Definition unit7 : Unit := (ctx0, Some 7%N).
Definition no_units : Units := (ctx0, []).
Definition pos34 : option Point2D := Some (3%Z, 4%Z).

(** Four calls: a chat, an order on the group without units, a camera move
    and an order on one unit. *)
Definition four_calls : list Call :=
  [CallChat "gg"; CallUnitsOrder no_units 5%Z; CallMoveCamera (3%Z, 4%Z);
   CallUnitOrder unit7 2%Z].

(** The three commands they leave pending on an empty queue. *)
Definition three_commands : list Action :=
  [chat "gg"; camera_command (3%Z, 4%Z, 0%Z); order_command [7%N] 2%Z None].

Definition world_after_four : World :=
  mkWorld {[ 1%positive := mkActions tt three_commands None ]} (mkExt [] []) [].

Definition world_silent : World := world3 (Some (report "h")) [[]].

(** Two queues: three chats with handler "h" at address 1, three chats
    without handler at address 2. *)
Definition world_two : World :=
  mkWorld (<[ 2%positive := queue_n ]> {[ 1%positive := queue_h ]})
    (mkExt [[2%Z; 1%Z; 3%Z]] []) [].

(** A program: enqueue, register, flush, create a second queue, enqueue on
    it, order through a unit, flush both. *)
Definition program : list Op :=
  [OpCall bot0 (CallChat "a"); OpOnActionError bot0 (Some (report "h")); OpSend bot0;
   OpNewActions tt; OpCall (Some 2%positive) (CallChatTeam "b");
   OpUnitCall (CallUnit_Order unit7 5%Z); OpLogActionErrors (Some 2%positive);
   OpSend (Some 2%positive); OpSend bot0; OpSend bot0].

End demo.

(** ** Properties *)

Section Facts.
Context `{D : Decls} {Ext : Type} `{AI : !AgentInfoI Ext} `{L : !log.Logger Ext}
  `{UM : UnitModel}.

Implicit Types (w : World) (l : loc) (q : Actions) (a : ptr).
Implicit Types (c : Call) (cs : list Call) (rs results : list ActionResult).

(** *** The monad *)

Lemma bind_Returned {A B} (m : M A) (f : A -> M B) w x w1 :
  m w = Returned x w1 -> (m ≫= f) w = f x w1.
Proof. intros Hm. unfold mbind, M_bind. now rewrite Hm. Qed.

Lemma bind_Panicked {A B} (m : M A) (f : A -> M B) w p w1 :
  m w = Panicked p w1 -> (m ≫= f) w = Panicked p w1.
Proof. intros Hm. unfold mbind, M_bind. now rewrite Hm. Qed.

Lemma bind_inv_Returned {A B} (m : M A) (f : A -> M B) w y w2 :
  (m ≫= f) w = Returned y w2 ->
  exists x w1, m w = Returned x w1 /\ f x w1 = Returned y w2.
Proof.
  unfold mbind, M_bind. destruct (m w) as [x w1|p w1]; [eauto | discriminate].
Qed.

(** *** Memory *)

Lemma deref_lookup l w q :
  heap w !! l = Some q -> deref (Some l) w = Returned q w.
Proof. intros Hq. unfold deref. now rewrite Hq. Qed.

Lemma update_lookup l w q f :
  heap w !! l = Some q ->
  update (Some l) f w = Returned tt (mkWorld (<[l := f q]> (heap w)) (ext w) (trace w)).
Proof. intros Hq. unfold update. now rewrite Hq. Qed.

Lemma deref_inv a w q w1 :
  deref a w = Returned q w1 -> exists l, a = Some l /\ heap w !! l = Some q /\ w1 = w.
Proof.
  unfold deref. destruct a as [l|]; [|discriminate].
  destruct (heap w !! l) eqn:E; [|discriminate].
  intros [= -> ->]. eauto.
Qed.

Lemma append_action_lookup l w q x :
  heap w !! l = Some q ->
  append_action (Some l) x w =
    Returned tt (mkWorld (<[l := mkActions (info q) (actions q ++ [x]) (errorHandler q)]> (heap w))
                   (ext w) (trace w)).
Proof.
  intros Hq. unfold append_action.
  rewrite (bind_Returned _ _ _ _ _ (deref_lookup _ _ _ Hq)).
  unfold set_actions. now rewrite (update_lookup _ _ _ _ Hq).
Qed.

(** *** Enqueueing *)

Lemma empty_order_false_cons c t ts :
  order_tags c = Some (t :: ts) -> empty_order c = false.
Proof. intros E. unfold empty_order. rewrite E. now apply bool_decide_eq_false_2. Qed.

Lemma empty_order_false_None c :
  order_tags c = None -> empty_order c = false.
Proof. intros E. unfold empty_order. rewrite E. now apply bool_decide_eq_false_2. Qed.

Lemma empty_order_true c :
  order_tags c = Some [] -> empty_order c = true.
Proof. intros E. unfold empty_order. rewrite E. now apply bool_decide_eq_true_2. Qed.

(** A call on an existing queue returns: it appends its command, unless it
    is a unit order given no unit, which changes nothing. *)
Lemma call_lookup l w q c :
  heap w !! l = Some q ->
  call (Some l) c w =
    Returned tt
      (if empty_order c then w
       else mkWorld
              (<[l := mkActions (info q) (actions q ++ [command_of c]) (errorHandler q)]>
                 (heap w))
              (ext w) (trace w)).
Proof.
  intros Hq.
  destruct (order_tags c) as [[|t0 ts]|] eqn:Et.
  - rewrite (empty_order_true _ Et).
    destruct c; simpl in Et; try discriminate; simpl;
      unfold UnitsOrder, UnitsOrderTarget, UnitsOrderPos, unitsOrder, unitsOrderTarget,
        unitsOrderPos;
      injection Et as Et; now rewrite Et.
  - rewrite (empty_order_false_cons _ _ _ Et).
    destruct c; simpl in Et; try discriminate; simpl;
      unfold UnitOrder, UnitOrderTarget, UnitOrderPos, UnitsOrder, UnitsOrderTarget,
        UnitsOrderPos, unitsOrder, unitsOrderTarget, unitsOrderPos, unitOrder,
        order_command, raw_command;
      injection Et as Et; rewrite ?Et; simpl;
      now rewrite (append_action_lookup _ _ _ _ Hq).
  - rewrite (empty_order_false_None _ Et).
    destruct c; simpl in Et; try discriminate; simpl;
      unfold Chat, ChatTeam, MoveCamera, unitOrder;
      now rewrite (append_action_lookup _ _ _ _ Hq).
Qed.

Lemma World_eta w : mkWorld (heap w) (ext w) (trace w) = w.
Proof. now destruct w. Qed.

Lemma Actions_eta q : mkActions (info q) (actions q) (errorHandler q) = q.
Proof. now destruct q. Qed.

(** A sequence of calls on an existing queue returns, having appended the
    commands of the calls that are not empty unit orders, in order; nothing
    else in the world moves. *)
Lemma calls_lookup l cs : forall w q,
  heap w !! l = Some q ->
  calls (Some l) cs w =
    Returned tt
      (mkWorld
         (<[l := mkActions (info q)
                   (actions q ++ map command_of (filter (fun c => empty_order c = false) cs))
                   (errorHandler q)]> (heap w))
         (ext w) (trace w)).
Proof.
  induction cs as [|c cs IH]; intros w q Hq; simpl.
  - rewrite app_nil_r, Actions_eta.
    rewrite (insert_id _ _ _ Hq). now rewrite World_eta.
  - rewrite (bind_Returned _ _ _ _ _ (call_lookup _ _ _ c Hq)).
    destruct (empty_order c) eqn:Ec.
    + rewrite filter_cons_False by (rewrite Ec; discriminate). now apply IH.
    + rewrite filter_cons_True by exact Ec.
      erewrite IH by (simpl; apply lookup_insert_eq).
      simpl. rewrite insert_insert_eq. now rewrite <- app_assoc.
Qed.

(** *** Flushing *)

Lemma Send_empty l w q :
  heap w !! l = Some q -> actions q = [] -> Send (Some l) w = Returned tt w.
Proof.
  intros Hq Hnil. unfold Send.
  rewrite (bind_Returned _ _ _ _ _ (deref_lookup _ _ _ Hq)).
  now rewrite Hnil.
Qed.

(** On a queue that is not empty, [Send] calls the transport once with the
    whole pending sequence and goes on to the loop and the reset. *)
Lemma Send_nonempty l w q results e :
  heap w !! l = Some q -> actions q ≠ [] ->
  SendActions (info q) (actions q) (ext w) = (results, e) ->
  Send (Some l) w =
    ((if errorHandler q is Some _ then Send_range (Some l) 0 results else mret tt);;
     set_actions (Some l) [])
      (mkWorld (heap w) e (trace w ++ [EvSendActions (info q) (actions q) results])).
Proof.
  intros Hq Hne Hsend. unfold Send.
  rewrite (bind_Returned _ _ _ _ _ (deref_lookup _ _ _ Hq)).
  destruct (decide (length (actions q) = 0)) as [E|_].
  { destruct (actions q); [congruence | discriminate]. }
  erewrite bind_Returned; [|unfold call_SendActions; now rewrite Hsend].
  erewrite bind_Returned; [|apply deref_lookup; simpl; exact Hq].
  reflexivity.
Qed.

Lemma drop_cons_inv {A} (s : list A) i x xs :
  drop i s = x :: xs -> s !! i = Some x /\ drop (S i) s = xs.
Proof.
  intros E. split.
  - rewrite <- (Nat.add_0_r i), <- lookup_drop. now rewrite E.
  - replace (S i) with (i + 1) by lia. rewrite <- drop_drop. now rewrite E.
Qed.

(** The loop, when a handler is registered and the results do not run past
    the batch: it returns, having called the handler on each failure. *)
Lemma Send_range_aligned l q h rs : forall i w,
  heap w !! l = Some q -> errorHandler q = Some h ->
  length rs <= length (drop i (actions q)) ->
  Send_range (Some l) i rs w =
    Returned tt
      (mkWorld (heap w)
         (run_handler h (reports (drop i (actions q)) rs) (ext w))
         (trace w ++ map (fun p => EvActionError p.1 p.2) (reports (drop i (actions q)) rs))).
Proof.
  induction rs as [|r rs IH]; intros i w Hq Hh Hlen.
  - simpl. unfold reports. rewrite zip_with_nil_r. simpl.
    rewrite app_nil_r. now rewrite World_eta.
  - destruct (drop i (actions q)) as [|x xs] eqn:Ed; [simpl in Hlen; lia|].
    destruct (drop_cons_inv _ _ _ _ Ed) as [Hi Hd].
    simpl in Hlen. cbn [Send_range].
    destruct (decide (r ≠ ActionResult_Success)) as [Hr|Hr].
    + erewrite bind_Returned; cycle 1.
      { rewrite (bind_Returned _ _ _ _ _ (deref_lookup _ _ _ Hq)).
        unfold index. rewrite Hi.
        erewrite bind_Returned by reflexivity.
        rewrite Hh. reflexivity. }
      rewrite IH; [|exact Hq|exact Hh|rewrite Hd; simpl; lia].
      rewrite Hd. unfold reports. simpl.
      rewrite filter_cons_True by exact Hr. simpl.
      now rewrite <- app_assoc.
    + erewrite bind_Returned by reflexivity.
      rewrite IH; [|exact Hq|exact Hh|rewrite Hd; lia].
      rewrite Hd. unfold reports. simpl.
      now rewrite filter_cons_False by exact Hr.
Qed.

(** One turn of the loop: it skips a success, or invokes the handler once,
    or panics on the spot. *)
Lemma Send_range_step a i r rs w :
  Send_range a i (r :: rs) w = Send_range a (S i) rs w \/
  (exists x h, r ≠ ActionResult_Success /\
     Send_range a i (r :: rs) w =
       Send_range a (S i) rs
         (mkWorld (heap w) (h x r (ext w)) (trace w ++ [EvActionError x r]))) \/
  (exists p, Send_range a i (r :: rs) w = Panicked p w).
Proof.
  cbn [Send_range].
  destruct (decide (r ≠ ActionResult_Success)) as [Hr|Hr];
    [|left; now erewrite bind_Returned by reflexivity].
  right.
  destruct a as [l|];
    [|right; eexists; apply bind_Panicked, bind_Panicked; reflexivity].
  destruct (heap w !! l) as [q|] eqn:Hq;
    [|right; eexists; apply bind_Panicked, bind_Panicked; unfold deref; now rewrite Hq].
  destruct (actions q !! i) as [x|] eqn:Hi; cycle 1.
  { right. eexists. apply bind_Panicked.
    rewrite (bind_Returned _ _ _ _ _ (deref_lookup _ _ _ Hq)).
    apply bind_Panicked. unfold index. now rewrite Hi. }
  destruct (errorHandler q) as [h|] eqn:Hh; cycle 1.
  { right. eexists. apply bind_Panicked.
    rewrite (bind_Returned _ _ _ _ _ (deref_lookup _ _ _ Hq)).
    unfold index. rewrite Hi. erewrite bind_Returned by reflexivity.
    now rewrite Hh. }
  left. exists x, h. split; [exact Hr|].
  erewrite bind_Returned; cycle 1.
  { rewrite (bind_Returned _ _ _ _ _ (deref_lookup _ _ _ Hq)).
    unfold index. rewrite Hi. erewrite bind_Returned by reflexivity.
    rewrite Hh. reflexivity. }
  reflexivity.
Qed.

(** The loop in general, panics included: it never touches the heap, and
    what it adds to the trace are handler invocations only. *)
Lemma Send_range_frame a rs : forall i w,
  heap (outcome_world (Send_range a i rs w)) = heap w /\
  exists evs, trace (outcome_world (Send_range a i rs w)) = trace w ++ evs /\
              transport_calls evs = [].
Proof.
  induction rs as [|r rs IH]; intros i w.
  - simpl. split; [reflexivity|]. exists []. now rewrite app_nil_r.
  - destruct (Send_range_step a i r rs w) as [E|[(x & h & _ & E)|(p & E)]]; rewrite E.
    + apply IH.
    + destruct (IH (S i) (mkWorld (heap w) (h x r (ext w))
                            (trace w ++ [EvActionError x r]))) as (Hh & evs & Ht & Hc).
      split; [exact Hh|].
      exists (EvActionError x r :: evs). simpl in Ht.
      rewrite Ht, <- app_assoc. split; [reflexivity | exact Hc].
    + simpl. split; [reflexivity|]. exists []. now rewrite app_nil_r.
Qed.

(** [Send] with a handler registered and results that do not run past the
    batch. *)
Lemma Send_aligned l w q h results e :
  heap w !! l = Some q -> actions q ≠ [] -> errorHandler q = Some h ->
  SendActions (info q) (actions q) (ext w) = (results, e) ->
  length results <= length (actions q) ->
  Send (Some l) w =
    Returned tt
      (mkWorld (<[l := mkActions (info q) [] (Some h)]> (heap w))
         (run_handler h (reports (actions q) results) e)
         (trace w ++ EvSendActions (info q) (actions q) results
                  :: map (fun p => EvActionError p.1 p.2) (reports (actions q) results))).
Proof.
  intros Hq Hne Hh Hsend Hlen.
  rewrite (Send_nonempty _ _ _ _ _ Hq Hne Hsend), Hh.
  erewrite bind_Returned; cycle 1.
  { apply (Send_range_aligned l q h); [exact Hq | exact Hh | now rewrite drop_0]. }
  rewrite drop_0. unfold set_actions.
  erewrite update_lookup by (simpl; exact Hq).
  simpl. rewrite Hh, <- app_assoc. reflexivity.
Qed.

(** [Send] with no handler registered: the loop is skipped altogether. *)
Lemma Send_no_handler l w q results e :
  heap w !! l = Some q -> actions q ≠ [] -> errorHandler q = None ->
  SendActions (info q) (actions q) (ext w) = (results, e) ->
  Send (Some l) w =
    Returned tt
      (mkWorld (<[l := mkActions (info q) [] None]> (heap w)) e
         (trace w ++ [EvSendActions (info q) (actions q) results])).
Proof.
  intros Hq Hne Hh Hsend.
  rewrite (Send_nonempty _ _ _ _ _ Hq Hne Hsend), Hh.
  erewrite bind_Returned by reflexivity.
  unfold set_actions. erewrite update_lookup by (simpl; exact Hq).
  simpl. now rewrite Hh.
Qed.

Lemma pending_lookup l w q : heap w !! l = Some q -> pending (Some l) w = Some (actions q).
Proof. intros Hq. unfold pending. simpl. now rewrite Hq. Qed.

(** Whenever [Send] returns, the queue it was called on is empty. *)
Lemma Send_Returned_pending a w w' :
  Send a w = Returned tt w' -> pending a w' = Some [].
Proof.
  unfold Send. intros Hs.
  apply bind_inv_Returned in Hs as (q & w1 & Hd & Hs).
  apply deref_inv in Hd as (l & -> & Hq & ->).
  destruct (decide (length (actions q) = 0)) as [E|_].
  - inversion Hs; subst. rewrite (pending_lookup _ _ _ Hq).
    destruct (actions q); [reflexivity | discriminate].
  - apply bind_inv_Returned in Hs as (results & w1 & _ & Hs).
    apply bind_inv_Returned in Hs as (q' & w2 & _ & Hs).
    apply bind_inv_Returned in Hs as (u & w3 & _ & Hs).
    unfold set_actions, update in Hs.
    destruct (heap w3 !! l) as [q3|] eqn:E3; [|discriminate].
    inversion Hs; subst. unfold pending. simpl.
    now rewrite lookup_insert_eq.
Qed.

(** What [Send] adds to the trace on a queue that is not empty, panics
    included: one call of the transport with the pending sequence, then
    handler invocations only. *)
Lemma Send_trace_nonempty l w q :
  heap w !! l = Some q -> actions q ≠ [] ->
  exists evs,
    trace (outcome_world (Send (Some l) w)) =
      trace w ++ EvSendActions (info q) (actions q)
                   (SendActions (info q) (actions q) (ext w)).1 :: evs /\
    transport_calls evs = [].
Proof.
  intros Hq Hne.
  destruct (SendActions (info q) (actions q) (ext w)) as [results e] eqn:Hsend.
  rewrite (Send_nonempty _ _ _ _ _ Hq Hne Hsend). simpl.
  set (w1 := mkWorld (heap w) e (trace w ++ [EvSendActions (info q) (actions q) results])).
  set (body := if errorHandler q is Some _ then Send_range (Some l) 0 results else mret tt).
  assert (Hbody : heap (outcome_world (body w1)) = heap w1 /\
                  exists evs, trace (outcome_world (body w1)) = trace w1 ++ evs /\
                              transport_calls evs = []).
  { unfold body. destruct (errorHandler q).
    - apply Send_range_frame.
    - simpl. split; [reflexivity|]. exists []. now rewrite app_nil_r. }
  destruct Hbody as (Hh & evs & Ht & Hc). exists evs. split; [|exact Hc].
  destruct (body w1) as [u w2|p w2] eqn:Eb; simpl in Hh, Ht.
  - rewrite (bind_Returned _ _ _ _ _ Eb).
    unfold set_actions. erewrite update_lookup by (rewrite Hh; exact Hq).
    simpl. rewrite Ht. unfold w1. simpl. now rewrite <- app_assoc.
  - rewrite (bind_Panicked _ _ _ _ _ Eb).
    simpl. rewrite Ht. unfold w1. simpl. now rewrite <- app_assoc.
Qed.

Lemma transport_calls_send (i : AgentInfo) (batch : list Action) results evs :
  transport_calls (EvSendActions i batch results :: evs) = batch :: transport_calls evs.
Proof. reflexivity. Qed.

(** Whatever the receiver, every batch [Send] hands to the transport has at
    least one command. *)
Lemma Send_trace_batches a w :
  exists new,
    trace (outcome_world (Send a w)) = trace w ++ new /\
    Forall (fun batch => batch ≠ []) (transport_calls new).
Proof.
  destruct a as [l|]; [|exists []; simpl; now rewrite app_nil_r].
  destruct (heap w !! l) as [q|] eqn:Hq; cycle 1.
  { exists []. unfold Send. erewrite bind_Panicked by (unfold deref; now rewrite Hq).
    simpl. now rewrite app_nil_r. }
  destruct (decide (actions q = [])) as [E|E].
  - exists []. rewrite (Send_empty _ _ _ Hq E). simpl. now rewrite app_nil_r.
  - destruct (Send_trace_nonempty _ _ _ Hq E) as (evs & Ht & Hc).
    eexists. split; [exact Ht|].
    rewrite transport_calls_send, Hc. now constructor.
Qed.

(** *** Failing indices *)

Lemma filter_all {A} (P : A -> Prop) `{!forall x, Decision (P x)} (s : list A) :
  Forall P s -> filter P s = s.
Proof.
  induction 1 as [|x s Hx _ IH]; [reflexivity|].
  rewrite filter_cons_True by exact Hx. now rewrite IH.
Qed.












(** The loop with a handler registered, in general: returning or panicking,
    it leaves the world in which the handler has run on the failures that
    have a command in the batch, and on nothing else. *)
Lemma Send_range_world l q h rs : forall i w,
  heap w !! l = Some q -> errorHandler q = Some h ->
  outcome_world (Send_range (Some l) i rs w) =
    mkWorld (heap w)
      (run_handler h (reports (drop i (actions q)) rs) (ext w))
      (trace w ++ map (fun p => EvActionError p.1 p.2) (reports (drop i (actions q)) rs)).
Proof.
  induction rs as [|r rs IH]; intros i w Hq Hh.
  - simpl. unfold reports. rewrite zip_with_nil_r. simpl.
    rewrite app_nil_r. now rewrite World_eta.
  - cbn [Send_range].
    destruct (decide (r ≠ ActionResult_Success)) as [Hr|Hr].
    + destruct (actions q !! i) as [x|] eqn:Hi.
      * erewrite bind_Returned; cycle 1.
        { rewrite (bind_Returned _ _ _ _ _ (deref_lookup _ _ _ Hq)).
          unfold index. rewrite Hi.
          erewrite bind_Returned by reflexivity.
          rewrite Hh. reflexivity. }
        rewrite IH; [|exact Hq|exact Hh].
        rewrite (drop_S _ _ _ Hi). unfold reports. simpl.
        rewrite filter_cons_True by exact Hr. simpl.
        now rewrite <- app_assoc.
      * erewrite bind_Panicked; cycle 1.
        { rewrite (bind_Returned _ _ _ _ _ (deref_lookup _ _ _ Hq)).
          apply bind_Panicked. unfold index. now rewrite Hi. }
        rewrite drop_ge by now apply lookup_ge_None.
        simpl. rewrite app_nil_r. now rewrite World_eta.
    + erewrite bind_Returned by reflexivity.
      rewrite IH; [|exact Hq|exact Hh].
      destruct (actions q !! i) as [x|] eqn:Hi.
      * rewrite (drop_S _ _ _ Hi). unfold reports. simpl.
        now rewrite filter_cons_False by exact Hr.
      * apply lookup_ge_None in Hi.
        rewrite !drop_ge by lia. reflexivity.
Qed.

(** [Send] with a handler registered, in general: what the call leaves,
    returning or panicking, outside the queue. *)
Lemma Send_world_handler l w q h results e :
  heap w !! l = Some q -> actions q ≠ [] -> errorHandler q = Some h ->
  SendActions (info q) (actions q) (ext w) = (results, e) ->
  ext (outcome_world (Send (Some l) w)) = run_handler h (reports (actions q) results) e /\
  trace (outcome_world (Send (Some l) w)) =
    trace w ++ EvSendActions (info q) (actions q) results
             :: map (fun p => EvActionError p.1 p.2) (reports (actions q) results).
Proof.
  intros Hq Hne Hh Hsend.
  rewrite (Send_nonempty _ _ _ _ _ Hq Hne Hsend), Hh.
  set (w1 := mkWorld (heap w) e (trace w ++ [EvSendActions (info q) (actions q) results])).
  pose proof (Send_range_world l q h results 0 w1 Hq Hh) as Hw.
  rewrite drop_0 in Hw.
  destruct (Send_range (Some l) 0 results w1) as [u w2|p w2] eqn:Eb; simpl in Hw; subst w2.
  - rewrite (bind_Returned _ _ _ _ _ Eb).
    unfold set_actions. erewrite update_lookup by (simpl; exact Hq).
    simpl. now rewrite <- app_assoc.
  - rewrite (bind_Panicked _ _ _ _ _ Eb). simpl. now rewrite <- app_assoc.
Qed.

Lemma length_filter_split {A} (P : A -> bool) (s : list A) :
  length (filter (fun x => P x = false) s) + length (filter (fun x => P x = true) s) = length s.
Proof.
  induction s as [|x s IH]; [reflexivity|].
  destruct (P x) eqn:E.
  - rewrite filter_cons_False by (rewrite E; discriminate).
    rewrite filter_cons_True by exact E. simpl. lia.
  - rewrite filter_cons_True by exact E.
    rewrite filter_cons_False by (rewrite E; discriminate). simpl. lia.
Qed.

Lemma Send_pending_nil a w : pending a w = Some [] -> Send a w = Returned tt w.
Proof.
  unfold pending. destruct a as [l|]; [simpl|discriminate].
  destruct (heap w !! l) as [q|] eqn:Hq; [simpl|discriminate].
  intros [= E]. now apply (Send_empty _ _ q).
Qed.

(** *** The claims *)

(** C1 (as amended). For every sequence of N enqueue calls (any mix of chat,
    camera-move and unit-order calls) starting from an empty queue: the
    calls return; a unit order given an empty unit-identifier sequence adds
    nothing, every other call adds its command, so the pending sequence
    afterward is the commands of the other calls in call order and the
    pending count is N less the number of such empty orders (N when there
    is none); a subsequent flush hands exactly the pending commands to the
    transport in that order, in one batch when there is any, whether or not
    the flush later panics. *)
Theorem enqueue_then_flush cs w l q :
  heap w !! l = Some q -> actions q = [] ->
  exists w' sent,
    calls (Some l) cs w = Returned tt w' /\
    sent = map command_of (filter (fun c => empty_order c = false) cs) /\
    pending (Some l) w' = Some sent /\
    length sent + length (filter (fun c => empty_order c = true) cs) = length cs /\
    (Forall (fun c => empty_order c = false) cs ->
     sent = map command_of cs /\ length sent = length cs) /\
    exists new,
      trace (outcome_world (Send (Some l) w')) = trace w' ++ new /\
      sent_commands new = sent /\
      (sent ≠ [] -> transport_calls new = [sent]).
Proof.
  intros Hq Hnil.
  rewrite (calls_lookup l cs w q Hq), Hnil, app_nil_l.
  eexists _, _. split; [reflexivity|]. split; [reflexivity|].
  set (sent := map command_of (filter (fun c => empty_order c = false) cs)).
  set (q' := mkActions (info q) sent (errorHandler q)).
  set (w' := mkWorld (<[l := q']> (heap w)) (ext w) (trace w)).
  assert (Hq' : heap w' !! l = Some q') by apply lookup_insert_eq.
  split; [now rewrite (pending_lookup _ _ _ Hq')|].
  split; [unfold sent; rewrite length_map; apply (length_filter_split empty_order)|].
  split.
  { intros Hall. unfold sent. rewrite (filter_all _ _ Hall).
    split; [reflexivity | apply length_map]. }
  destruct (decide (sent = [])) as [E|E].
  - exists []. rewrite (Send_empty _ _ _ Hq' E). simpl.
    rewrite app_nil_r. repeat split; [now rewrite E | congruence].
  - destruct (Send_trace_nonempty l w' q' Hq' E) as (evs & Ht & Hc).
    eexists. split; [exact Ht|].
    unfold sent_commands. rewrite transport_calls_send, Hc. simpl.
    rewrite app_nil_r. split; reflexivity.
Qed.


(** C3. After a call to flush the pending sequence is empty, whatever the
    transport reported: every call of [Send] that returns leaves the queue
    empty, and [Send] does return on every existing queue when the results
    do not run past the batch or no handler is registered. *)
Theorem Send_empties_queue w l q :
  heap w !! l = Some q ->
  (forall w', Send (Some l) w = Returned tt w' -> pending (Some l) w' = Some []) /\
  (length (SendActions (info q) (actions q) (ext w)).1 <= length (actions q) \/
   errorHandler q = None ->
   exists w', Send (Some l) w = Returned tt w' /\ pending (Some l) w' = Some []).
Proof.
  intros Hq. split; [intros w'; apply Send_Returned_pending|].
  intros Hok.
  assert (exists w', Send (Some l) w = Returned tt w') as [w' Hs].
  { destruct (decide (actions q = [])) as [E|E].
    { exists w. now apply (Send_empty _ _ q). }
    destruct (SendActions (info q) (actions q) (ext w)) as [results e] eqn:Hsend.
    destruct (errorHandler q) as [h|] eqn:Hh.
    - destruct Hok as [Hlen|?]; [|discriminate].
      eexists. now apply (Send_aligned _ _ q h results e).
    - eexists. now apply (Send_no_handler _ _ q results e). }
  exists w'. split; [exact Hs | now apply Send_Returned_pending in Hs].
Qed.

(** C4. In every state in which the pending sequence is empty, flush
    returns at once and changes nothing, the trace of transport calls
    included; and in every state, whatever flush does, each batch it hands
    to the transport has at least one command. *)
Theorem Send_empty_noop a w :
  (pending a w = Some [] -> Send a w = Returned tt w) /\
  (exists new,
     trace (outcome_world (Send a w)) = trace w ++ new /\
     Forall (fun batch => batch ≠ []) (transport_calls new)).
Proof. split; [apply Send_pending_nil | apply Send_trace_batches]. Qed.

(** C5. A unit order given an empty unit-identifier sequence is a silent
    no-op, with no target, a unit target or a position target: the call
    returns and the world, the pending sequence in it, is unchanged.  The
    same holds for every call that is such an order, the public group
    orders on a group without tags included. *)
Theorem empty_unit_order_noop a ability target pos w :
  unitsOrder a [] ability w = Returned tt w /\
  unitsOrderTarget a [] ability target w = Returned tt w /\
  unitsOrderPos a [] ability pos w = Returned tt w /\
  (forall c, empty_order c = true -> call a c w = Returned tt w).
Proof.
  repeat split.
  intros c Hc. unfold empty_order in Hc. apply bool_decide_eq_true_1 in Hc.
  destruct c; simpl in Hc; try discriminate; simpl;
    unfold UnitsOrder, UnitsOrderTarget, UnitsOrderPos, unitsOrder, unitsOrderTarget,
      unitsOrderPos;
    injection Hc as Hc; now rewrite Hc.
Qed.

(** C6. A new queue has no handler.  With no handler registered, a flush
    whose results contain failures, however many results there are, returns
    without a panic, invokes no handler and leaves the outside state as the
    transport left it.  [OnActionError] replaces the handler and nothing
    else; a flush after it runs the new handler, and only it, on the
    failures, whatever handler was registered before. *)
Theorem handler_default_and_replacement w l q (i : AgentInfo)
    (handler : option ActionErrorHandler) (h2 : ActionErrorHandler) results e :
  heap w !! l = Some q -> actions q ≠ [] ->
  SendActions (info q) (actions q) (ext w) = (results, e) ->
  (exists l0 w0,
     NewActions i w = Returned (Some l0) w0 /\ heap w !! l0 = None /\
     heap w0 !! l0 = Some (mkActions i [] None)) /\
  (errorHandler q = None ->
   exists w',
     Send (Some l) w = Returned tt w' /\ ext w' = e /\
     trace w' = trace w ++ [EvSendActions (info q) (actions q) results]) /\
  OnActionError (Some l) handler w =
    Returned tt (mkWorld (<[l := mkActions (info q) (actions q) handler]> (heap w))
                   (ext w) (trace w)) /\
  (length results <= length (actions q) ->
   exists w1 w2,
     OnActionError (Some l) (Some h2) w = Returned tt w1 /\
     Send (Some l) w1 = Returned tt w2 /\
     ext w2 = run_handler h2 (reports (actions q) results) e /\
     trace w2 = trace w ++ EvSendActions (info q) (actions q) results
                  :: map (fun p => EvActionError p.1 p.2) (reports (actions q) results)).
Proof.
  intros Hq Hne Hsend.
  assert (Hset : forall h', OnActionError (Some l) h' w =
            Returned tt (mkWorld (<[l := mkActions (info q) (actions q) h']> (heap w))
                           (ext w) (trace w))).
  { intros h'. unfold OnActionError, set_errorHandler. now rewrite (update_lookup _ _ _ _ Hq). }
  split; [|split; [|split]].
  - exists (fresh (dom (heap w))). eexists. split; [reflexivity|]. split.
    + apply not_elem_of_dom, is_fresh.
    + simpl. apply lookup_insert_eq.
  - intros Hh. rewrite (Send_no_handler _ _ _ _ _ Hq Hne Hh Hsend).
    eexists. split; [reflexivity|]. split; reflexivity.
  - apply Hset.
  - intros Hlen. eexists _, _. split; [apply Hset|].
    erewrite (Send_aligned l _ (mkActions (info q) (actions q) (Some h2)) h2 results e);
      [|simpl; apply lookup_insert_eq|exact Hne|reflexivity|exact Hsend|exact Hlen].
    split; [reflexivity|]. split; reflexivity.
Qed.



(** *** The frame of the enqueue operations *)

Lemma frame_refl w : frame w w.
Proof. repeat split. Qed.

Lemma append_action_frame a x w : frame w (outcome_world (append_action a x w)).
Proof.
  destruct a as [l|]; [|apply frame_refl].
  destruct (heap w !! l) as [q|] eqn:Hq.
  - rewrite (append_action_lookup _ _ _ x Hq). simpl.
    split; [reflexivity|]. split; [reflexivity|].
    intros l'. simpl. destruct (decide (l = l')) as [<-|Hne].
    + rewrite lookup_insert_eq, Hq. now split.
    + rewrite lookup_insert_ne by exact Hne. now split.
  - unfold append_action.
    erewrite bind_Panicked by (unfold deref; now rewrite Hq).
    apply frame_refl.
Qed.

Lemma call_frame a c w : frame w (outcome_world (call a c w)).
Proof.
  destruct c; simpl;
    unfold Chat, ChatTeam, MoveCamera, UnitOrder, UnitOrderTarget, UnitOrderPos,
      UnitsOrder, UnitsOrderTarget, UnitsOrderPos, unitsOrder, unitsOrderTarget,
      unitsOrderPos, unitOrder;
    try apply append_action_frame.
  all: match goal with
       | |- context [decide ?P] => destruct (decide P)
       end;
    [apply frame_refl | apply append_action_frame].
Qed.

Lemma unit_call_frame (uc : UnitCall) w : frame w (outcome_world (unit_call uc w)).
Proof.
  destruct uc; simpl;
    unfold Units_Order, Units_OrderTarget, Units_OrderPos,
      Unit_Order, Unit_OrderTarget, Unit_OrderPos.
  1-3: destruct (decide (0 < length (Units_raw units))); [|apply frame_refl];
    destruct (Units_ctx units) as [x|]; [|apply frame_refl].
  4-6: destruct (IsNil u); [apply frame_refl|]; simpl;
    destruct (Unit_ctx u) as [x|]; [|apply frame_refl].
  - apply (call_frame (bot x) (Call_unitsOrder (Tags units) ability)).
  - apply (call_frame (bot x) (Call_unitsOrderTarget (Tags units) ability target)).
  - apply (call_frame (bot x) (Call_unitsOrderPos (Tags units) ability target)).
  - apply (call_frame (bot x) (CallUnitOrder u ability)).
  - apply (call_frame (bot x) (CallUnitOrderTarget u ability target)).
  - apply (call_frame (bot x) (CallUnitOrderPos u ability target)).
Qed.

(** C9. No enqueue operation, on the queue or through a unit or a group,
    returning or panicking, invokes the transport or the handler (the trace
    and the outside state are unchanged), and none changes the transport
    reference or the error handler of any queue. *)
Theorem enqueue_frame a c (uc : UnitCall) w :
  (trace (outcome_world (call a c w)) = trace w /\
   ext (outcome_world (call a c w)) = ext w /\
   same_fields w (outcome_world (call a c w))) /\
  (trace (outcome_world (unit_call uc w)) = trace w /\
   ext (outcome_world (unit_call uc w)) = ext w /\
   same_fields w (outcome_world (unit_call uc w))).
Proof. split; [apply call_frame | apply unit_call_frame]. Qed.

(** C10. The convenience order methods are no-ops on degenerate receivers:
    [Order], [OrderTarget] and [OrderPos] on a nil unit, or on a group whose
    slice of units is empty, return with the world, every pending sequence
    in it, unchanged. *)
Theorem degenerate_receiver_noop (u : Unit) (units : Units) ability target pos w :
  (IsNil u = true ->
   Unit_Order u ability w = Returned tt w /\
   Unit_OrderTarget u ability target w = Returned tt w /\
   Unit_OrderPos u ability pos w = Returned tt w) /\
  (Units_raw units = [] ->
   Units_Order units ability w = Returned tt w /\
   Units_OrderTarget units ability target w = Returned tt w /\
   Units_OrderPos units ability pos w = Returned tt w).
Proof.
  split.
  - intros Hnil. unfold Unit_Order, Unit_OrderTarget, Unit_OrderPos.
    rewrite Hnil. repeat split.
  - intros Hraw. unfold Units_Order, Units_OrderTarget, Units_OrderPos.
    rewrite Hraw. repeat split.
Qed.

End Facts.

(** ** Further properties of the package *)

Section Extras.
Context `{D : Decls} {Ext : Type} `{AI : !AgentInfoI Ext} `{L : !log.Logger Ext}
  `{UM : UnitModel}.

Implicit Types (w : World) (l : loc) (q : Actions) (a : ptr).
Implicit Types (c : Call) (cs : list Call) (rs results : list ActionResult).

(** *** What a flush leaves alone *)

(** The heap after [Send], returning or panicking: untouched, or the queue
    of the receiver reset and nothing else. *)
Lemma Send_heap a w :
  heap (outcome_world (Send a w)) = heap w \/
  exists l q, a = Some l /\ heap w !! l = Some q /\
    heap (outcome_world (Send a w)) =
      <[l := mkActions (info q) [] (errorHandler q)]> (heap w).
Proof.
  destruct a as [l|]; [|now left].
  destruct (heap w !! l) as [q|] eqn:Hq; cycle 1.
  { left. unfold Send. now erewrite bind_Panicked by (unfold deref; now rewrite Hq). }
  destruct (decide (actions q = [])) as [E|E].
  { left. now rewrite (Send_empty _ _ _ Hq E). }
  destruct (SendActions (info q) (actions q) (ext w)) as [results e] eqn:Hsend.
  rewrite (Send_nonempty _ _ _ _ _ Hq E Hsend).
  set (w1 := mkWorld (heap w) e (trace w ++ [EvSendActions (info q) (actions q) results])).
  set (body := if errorHandler q is Some _ then Send_range (Some l) 0 results else mret tt).
  assert (Hbody : heap (outcome_world (body w1)) = heap w).
  { unfold body. destruct (errorHandler q); [|reflexivity].
    now destruct (Send_range_frame (Some l) results 0 w1) as [Hh _]. }
  destruct (body w1) as [u w2|p w2] eqn:Eb; simpl in Hbody.
  - right. exists l, q. split; [reflexivity|]. split; [exact Hq|].
    rewrite (bind_Returned _ _ _ _ _ Eb).
    unfold set_actions. erewrite update_lookup by (rewrite Hbody; exact Hq).
    simpl. now rewrite Hbody.
  - left. now rewrite (bind_Panicked _ _ _ _ _ Eb).
Qed.

(** X7. A flush, returning or panicking, changes neither the transport
    reference nor the error handler of any queue, leaves every queue other
    than its receiver exactly as it was, and leaves the pending sequence of
    its receiver either untouched or empty. *)
Theorem Send_frame a w :
  same_fields w (outcome_world (Send a w)) /\
  (forall l', a ≠ Some l' ->
     heap (outcome_world (Send a w)) !! l' = heap w !! l') /\
  (pending a (outcome_world (Send a w)) = pending a w \/
   pending a (outcome_world (Send a w)) = Some []).
Proof.
  destruct (Send_heap a w) as [E|(l & q & -> & Hq & E)]; rewrite ?E.
  - split; [intros l'; now rewrite E|].
    split; [reflexivity|]. left. unfold pending. now rewrite E.
  - split; [|split].
    + intros l'. rewrite E. destruct (decide (l = l')) as [<-|Hne].
      * rewrite lookup_insert_eq, Hq. now split.
      * rewrite lookup_insert_ne by exact Hne. now split.
    + intros l' Hne. apply lookup_insert_ne. congruence.
    + right. unfold pending. simpl. rewrite E. now rewrite lookup_insert_eq.
Qed.

(** *** Creating a queue *)

(** X1. [NewActions] returns a queue at an address that was unused: every
    queue that existed is untouched, the new queue carries the given
    transport, has nothing pending and no handler, the [Send] of the new
    queue is registered with the transport once and the transport is not
    called; a flush of the new queue right away does nothing. *)
Theorem NewActions_fresh (i : AgentInfo) w :
  exists l w',
    NewActions i w = Returned (Some l) w' /\
    heap w !! l = None /\
    heap w' !! l = Some (mkActions i [] None) /\
    (forall l', l' ≠ l -> heap w' !! l' = heap w !! l') /\
    ext w' = OnBeforeStep i (Some l) (ext w) /\
    trace w' = trace w /\
    Send (Some l) w' = Returned tt w'.
Proof.
  exists (fresh (dom (heap w))). eexists. split; [reflexivity|]. simpl.
  split; [apply not_elem_of_dom, is_fresh|].
  split; [apply lookup_insert_eq|].
  split; [intros l' Hne; now apply lookup_insert_ne|].
  split; [reflexivity|]. split; [reflexivity|].
  apply (Send_empty _ _ (mkActions i [] None)); [apply lookup_insert_eq | reflexivity].
Qed.

(** *** Registering a handler *)

Lemma OnActionError_lookup l w q (handler : option ActionErrorHandler) :
  heap w !! l = Some q ->
  OnActionError (Some l) handler w =
    Returned tt (mkWorld (<[l := mkActions (info q) (actions q) handler]> (heap w))
                   (ext w) (trace w)).
Proof.
  intros Hq. unfold OnActionError, set_errorHandler. now rewrite (update_lookup _ _ _ _ Hq).
Qed.

Lemma receiver_cases a w :
  (exists l q, a = Some l /\ heap w !! l = Some q) \/
  (forall l, a = Some l -> heap w !! l = None).
Proof.
  destruct a as [l|]; [destruct (heap w !! l) as [q|] eqn:Hq|].
  - left. eauto.
  - right. intros ? [= <-]. exact Hq.
  - right. intros ? [=].
Qed.

Lemma OnActionError_missing a w (handler : option ActionErrorHandler) :
  (forall l, a = Some l -> heap w !! l = None) ->
  OnActionError a handler w = Panicked NilDereference w.
Proof.
  intros Hmiss. unfold OnActionError, set_errorHandler, update.
  destruct a as [l|]; [|reflexivity]. now rewrite (Hmiss l eq_refl).
Qed.

Lemma call_missing a c w :
  (forall l, a = Some l -> heap w !! l = None) ->
  call a c w = if empty_order c then Returned tt w else Panicked NilDereference w.
Proof.
  intros Hmiss.
  assert (Happ : forall x, append_action a x w = Panicked NilDereference w).
  { intros x. unfold append_action. apply bind_Panicked. unfold deref.
    destruct a as [l|]; [|reflexivity]. now rewrite (Hmiss l eq_refl). }
  destruct (order_tags c) as [[|t0 ts]|] eqn:Et.
  - rewrite (empty_order_true _ Et).
    destruct c; simpl in Et; try discriminate; simpl;
      unfold UnitsOrder, UnitsOrderTarget, UnitsOrderPos, unitsOrder, unitsOrderTarget,
        unitsOrderPos;
      injection Et as Et; now rewrite Et.
  - rewrite (empty_order_false_cons _ _ _ Et).
    destruct c; simpl in Et; try discriminate; simpl;
      unfold UnitOrder, UnitOrderTarget, UnitOrderPos, UnitsOrder, UnitsOrderTarget,
        UnitsOrderPos, unitsOrder, unitsOrderTarget, unitsOrderPos, unitOrder;
      injection Et as Et; rewrite ?Et; simpl; apply Happ.
  - rewrite (empty_order_false_None _ Et).
    destruct c; simpl in Et; try discriminate; simpl;
      unfold Chat, ChatTeam, MoveCamera, unitOrder; apply Happ.
Qed.

(** X3. Registering a handler is last-writer-wins and independent of what
    is enqueued: registering twice is registering the second handler, and
    registering before or after an enqueue call gives the same result, on
    every receiver, a nil one included. *)
Theorem OnActionError_last_wins a (h1 h2 : option ActionErrorHandler) c w :
  (OnActionError a h1;; OnActionError a h2) w = OnActionError a h2 w /\
  (OnActionError a h2;; call a c) w = (call a c;; OnActionError a h2) w.
Proof.
  destruct (receiver_cases a w) as [(l & q & -> & Hq)|Hmiss].
  - split.
    + rewrite (bind_Returned _ _ _ _ _ (OnActionError_lookup l w q h1 Hq)).
      erewrite OnActionError_lookup by (simpl; apply lookup_insert_eq).
      rewrite (OnActionError_lookup l w q h2 Hq). simpl.
      now rewrite insert_insert_eq.
    + rewrite (bind_Returned _ _ _ _ _ (OnActionError_lookup l w q h2 Hq)).
      rewrite (bind_Returned _ _ _ _ _ (call_lookup l w q c Hq)).
      erewrite call_lookup by (simpl; apply lookup_insert_eq).
      destruct (empty_order c).
      * now rewrite (OnActionError_lookup l w q h2 Hq).
      * erewrite OnActionError_lookup by (simpl; apply lookup_insert_eq).
        simpl. now rewrite !insert_insert_eq.
  - split.
    + rewrite (bind_Panicked _ _ _ _ _ (OnActionError_missing a w h1 Hmiss)).
      now rewrite (OnActionError_missing a w h2 Hmiss).
    + rewrite (bind_Panicked _ _ _ _ _ (OnActionError_missing a w h2 Hmiss)).
      pose proof (call_missing a c w Hmiss) as Hc.
      destruct (empty_order c).
      * rewrite (bind_Returned _ _ _ _ _ Hc).
        now rewrite (OnActionError_missing a w h2 Hmiss).
      * now rewrite (bind_Panicked _ _ _ _ _ Hc).
Qed.

(** *** When a flush panics *)







(** X5. When the transport answers with no result at all, a flush of a
    queue that is not empty still returns and resets the queue: the handler,
    registered or not, is not invoked and the commands are gone. *)
Theorem Send_no_results w l q e :
  heap w !! l = Some q -> actions q ≠ [] ->
  SendActions (info q) (actions q) (ext w) = ([], e) ->
  Send (Some l) w =
    Returned tt
      (mkWorld (<[l := mkActions (info q) [] (errorHandler q)]> (heap w)) e
         (trace w ++ [EvSendActions (info q) (actions q) []])).
Proof.
  intros Hq Hne Hsend. destruct (errorHandler q) as [h|] eqn:Hh.
  - rewrite (Send_aligned _ _ _ _ _ _ Hq Hne Hh Hsend); [|simpl; lia].
    unfold reports. now rewrite zip_with_nil_r.
  - now rewrite (Send_no_handler _ _ _ _ _ Hq Hne Hh Hsend).
Qed.

(** *** The logging handler *)

(** X2. After [LogActionErrors], which returns on every existing queue and
    changes nothing but the handler, a flush logs one line per failure that
    has a command in the batch, in index order, each with the prefix
    "ActionError: ", then the result, then the command; a success is not
    logged. *)
Theorem LogActionErrors_logs w l q results e :
  heap w !! l = Some q -> actions q ≠ [] ->
  SendActions (info q) (actions q) (ext w) = (results, e) ->
  exists w1,
    LogActionErrors (Some l) w = Returned tt w1 /\
    pending (Some l) w1 = Some (actions q) /\
    ext w1 = ext w /\ trace w1 = trace w /\
    ext (outcome_world (Send (Some l) w1)) =
      foldl (fun e' p => log.Print "ActionError: " p.2 p.1 e') e
        (reports (actions q) results) /\
    trace (outcome_world (Send (Some l) w1)) =
      trace w ++ EvSendActions (info q) (actions q) results
               :: map (fun p => EvActionError p.1 p.2) (reports (actions q) results).
Proof.
  intros Hq Hne Hsend. unfold LogActionErrors.
  rewrite (OnActionError_lookup _ _ _ _ Hq). eexists. split; [reflexivity|].
  set (h := fun (a : Action) (r : ActionResult) => log.Print "ActionError: " r a).
  set (q1 := mkActions (info q) (actions q) (Some h)).
  set (w1 := mkWorld (<[l := q1]> (heap w)) (ext w) (trace w)).
  assert (Hq1 : heap w1 !! l = Some q1) by apply lookup_insert_eq.
  split; [now rewrite (pending_lookup _ _ _ Hq1)|].
  split; [reflexivity|]. split; [reflexivity|].
  exact (Send_world_handler l w1 q1 h results e Hq1 Hne eq_refl Hsend).
Qed.

(** *** Enqueueing on a queue that already holds commands *)

(** X6. Enqueue calls only append: on an existing queue, any sequence of
    calls returns, keeps the commands that were pending as a prefix in their
    order and adds the commands of the calls (empty unit orders apart)
    behind them; no other queue changes; and the next flush hands the old
    and the new commands to the transport in that order. *)
Theorem enqueue_appends cs w l q :
  heap w !! l = Some q ->
  exists w',
    calls (Some l) cs w = Returned tt w' /\
    pending (Some l) w' =
      Some (actions q ++ map command_of (filter (fun c => empty_order c = false) cs)) /\
    (forall l', l' ≠ l -> heap w' !! l' = heap w !! l') /\
    exists new,
      trace (outcome_world (Send (Some l) w')) = trace w' ++ new /\
      sent_commands new =
        actions q ++ map command_of (filter (fun c => empty_order c = false) cs).
Proof.
  intros Hq. rewrite (calls_lookup l cs w q Hq). eexists. split; [reflexivity|].
  set (p := actions q ++ map command_of (filter (fun c => empty_order c = false) cs)).
  set (q' := mkActions (info q) p (errorHandler q)).
  set (w' := mkWorld (<[l := q']> (heap w)) (ext w) (trace w)).
  assert (Hq' : heap w' !! l = Some q') by apply lookup_insert_eq.
  split; [now rewrite (pending_lookup _ _ _ Hq')|].
  split; [intros l' Hne; simpl; now apply lookup_insert_ne|].
  destruct (decide (p = [])) as [E|E].
  - exists []. rewrite (Send_empty _ _ _ Hq' E). simpl.
    rewrite app_nil_r. split; [reflexivity | now rewrite E].
  - destruct (Send_trace_nonempty l w' q' Hq' E) as (evs & Ht & Hc).
    eexists. split; [exact Ht|].
    unfold sent_commands. rewrite transport_calls_send, Hc. simpl.
    now rewrite app_nil_r.
Qed.


(** *** Orders on one unit and on a group *)

(** X9. The order methods of the queue for one unit have no nil guard:
    on an existing queue [UnitOrder], [UnitOrderTarget] and [UnitOrderPos]
    return having appended exactly one command with the one-element tag
    list of the unit, whatever the unit, a nil one included. *)
Theorem UnitOrder_always_appends (u target : Unit) (pos : option Point2D) ability w l q :
  heap w !! l = Some q ->
  let appended x :=
    Returned tt (mkWorld (<[l := mkActions (info q) (actions q ++ [x]) (errorHandler q)]>
                            (heap w)) (ext w) (trace w)) in
  UnitOrder (Some l) u ability w = appended (order_command [GetTag u] ability None) /\
  UnitOrderTarget (Some l) u ability target w =
    appended (order_command [GetTag u] ability
                (Some (ActionRawUnitCommand_TargetUnitTag (GetTag target)))) /\
  UnitOrderPos (Some l) u ability pos w =
    appended (order_command [GetTag u] ability
                (Some (ActionRawUnitCommand_TargetWorldSpacePos pos))).
Proof.
  intros Hq appended. repeat split.
  - apply (call_lookup l w q (CallUnitOrder u ability) Hq).
  - apply (call_lookup l w q (CallUnitOrderTarget u ability target) Hq).
  - apply (call_lookup l w q (CallUnitOrderPos u ability pos) Hq).
Qed.

(** The convenience methods of the units take the queue from the context
    of the receiver. *)
Lemma deref_ctx_bind {A} (c : option UnitContext) (f : UnitContext -> M A) w :
  (deref_ctx c ≫= f) w =
    match c with
    | Some x => f x w
    | None => Panicked NilDereference w
    end.
Proof. now destruct c. Qed.

(** X10. An order on a unit that is not nil goes to the queue of the
    unit's context: with a nil context, or a context without a queue, it
    panics with a nil dereference and changes nothing; otherwise it returns
    having appended exactly one command with the unit's tag to that queue. *)
Theorem Unit_Order_nonnil (u target : Unit) (pos : option Point2D) ability w :
  IsNil u = false ->
  (Unit_ctx u = None ->
   Unit_Order u ability w = Panicked NilDereference w /\
   Unit_OrderTarget u ability target w = Panicked NilDereference w /\
   Unit_OrderPos u ability pos w = Panicked NilDereference w) /\
  (forall x, Unit_ctx u = Some x -> bot x = None ->
   Unit_Order u ability w = Panicked NilDereference w /\
   Unit_OrderTarget u ability target w = Panicked NilDereference w /\
   Unit_OrderPos u ability pos w = Panicked NilDereference w) /\
  (forall x l q, Unit_ctx u = Some x -> bot x = Some l -> heap w !! l = Some q ->
   let appended cmd :=
     Returned tt (mkWorld (<[l := mkActions (info q) (actions q ++ [cmd]) (errorHandler q)]>
                             (heap w)) (ext w) (trace w)) in
   Unit_Order u ability w = appended (order_command [GetTag u] ability None) /\
   Unit_OrderTarget u ability target w =
     appended (order_command [GetTag u] ability
                 (Some (ActionRawUnitCommand_TargetUnitTag (GetTag target)))) /\
   Unit_OrderPos u ability pos w =
     appended (order_command [GetTag u] ability
                 (Some (ActionRawUnitCommand_TargetWorldSpacePos pos)))).
Proof.
  intros Hnil. unfold Unit_Order, Unit_OrderTarget, Unit_OrderPos.
  rewrite Hnil. cbn [negb]. rewrite !deref_ctx_bind.
  split; [|split].
  - intros ->. repeat split.
  - intros x -> Hbot. rewrite Hbot. repeat split.
  - intros x l q -> Hbot Hq. rewrite Hbot. repeat split.
    + apply (call_lookup l w q (CallUnitOrder u ability) Hq).
    + apply (call_lookup l w q (CallUnitOrderTarget u ability target) Hq).
    + apply (call_lookup l w q (CallUnitOrderPos u ability pos) Hq).
Qed.


(** *** A nil receiver *)

(** X14. On a nil queue every method panics with a nil dereference and
    changes nothing, with one exception: a unit order given no unit returns
    before the receiver is read. *)
Theorem nil_receiver (handler : option ActionErrorHandler) c w :
  Send None w = Panicked NilDereference w /\
  OnActionError None handler w = Panicked NilDereference w /\
  LogActionErrors None w = Panicked NilDereference w /\
  call None c w = (if empty_order c then Returned tt w else Panicked NilDereference w).
Proof.
  repeat split. apply call_missing. intros ? [=].
Qed.

(** *** Invariants of whole programs *)

Lemma same_fields_info_stable w w' : same_fields w w' -> info_stable w w'.
Proof.
  intros Hs l q Hq. destruct (Hs l) as [Hi _]. rewrite Hq in Hi. simpl in Hi.
  apply fmap_Some in Hi as (q' & Hq' & Hinfo). eauto.
Qed.

Lemma info_stable_refl w : info_stable w w.
Proof. intros l q Hq. eauto. Qed.

Lemma info_stable_trans w1 w2 w3 :
  info_stable w1 w2 -> info_stable w2 w3 -> info_stable w1 w3.
Proof.
  intros H12 H23 l q Hq.
  destruct (H12 l q Hq) as (q2 & Hq2 & E2).
  destruct (H23 l q2 Hq2) as (q3 & Hq3 & E3).
  exists q3. split; [exact Hq3 | congruence].
Qed.

Lemma Send_same_fields a w : same_fields w (outcome_world (Send a w)).
Proof.
  destruct (Send_heap a w) as [E|(l & q & -> & Hq & E)]; intros l'; rewrite E.
  - now split.
  - destruct (decide (l = l')) as [<-|Hne].
    + rewrite lookup_insert_eq, Hq. now split.
    + rewrite lookup_insert_ne by exact Hne. now split.
Qed.

(** What [OnActionError] leaves behind, returning or panicking. *)
Lemma OnActionError_world a (handler : option ActionErrorHandler) w :
  let w' := outcome_world (OnActionError a handler w) in
  info_stable w w' /\ trace w' = trace w /\ ext w' = ext w.
Proof.
  destruct (receiver_cases a w) as [(l & q & -> & Hq)|Hmiss].
  - rewrite (OnActionError_lookup l w q handler Hq). simpl.
    split; [|now split].
    intros l' q' Hq'. simpl. destruct (decide (l = l')) as [<-|Hne].
    + rewrite lookup_insert_eq. eexists. split; [reflexivity|]. simpl. congruence.
    + rewrite lookup_insert_ne by exact Hne. eauto.
  - rewrite (OnActionError_missing a w handler Hmiss). simpl.
    split; [apply info_stable_refl | now split].
Qed.

(** One operation: it loses no queue, changes no transport reference, and
    what it adds to the trace has no empty batch. *)
Lemma op_step (o : Op) w :
  info_stable w (outcome_world (op o w)) /\
  exists new,
    trace (outcome_world (op o w)) = trace w ++ new /\
    Forall (fun batch => batch ≠ []) (transport_calls new).
Proof.
  assert (Hnone : forall w' : World, trace w' = trace w ->
            exists new, trace w' = trace w ++ new /\
                        Forall (fun batch => batch ≠ []) (transport_calls new)).
  { intros w' Ht. exists []. rewrite app_nil_r. split; [exact Ht | constructor]. }
  destruct o as [i|a handler|a|a|a c|uc]; simpl.
  - split; [|now apply Hnone].
    intros l q Hq. simpl. exists q. split; [|reflexivity].
    rewrite lookup_insert_ne; [exact Hq|].
    intros E. pose proof (is_fresh (dom (heap w))) as Hf.
    apply not_elem_of_dom in Hf. rewrite E in Hf. congruence.
  - destruct (OnActionError_world a handler w) as (Hi & Ht & _).
    split; [exact Hi | now apply Hnone].
  - unfold LogActionErrors.
    destruct (OnActionError_world a
                (Some (fun (a : Action) (r : ActionResult) => log.Print "ActionError: " r a)) w)
      as (Hi & Ht & _).
    split; [exact Hi | now apply Hnone].
  - split; [apply same_fields_info_stable, Send_same_fields | apply Send_trace_batches].
  - destruct (call_frame a c w) as (Ht & _ & Hs).
    split; [now apply same_fields_info_stable | now apply Hnone].
  - destruct (unit_call_frame uc w) as (Ht & _ & Hs).
    split; [now apply same_fields_info_stable | now apply Hnone].
Qed.

Lemma ops_cons (o : Op) os w :
  outcome_world (ops (o :: os) w) =
    match op o w with
    | Returned _ w1 => outcome_world (ops os w1)
    | Panicked _ w1 => w1
    end.
Proof. cbn [ops]. unfold mbind, M_bind. now destruct (op o w). Qed.

Lemma ops_steps os : forall w,
  info_stable w (outcome_world (ops os w)) /\
  exists new,
    trace (outcome_world (ops os w)) = trace w ++ new /\
    Forall (fun batch => batch ≠ []) (transport_calls new).
Proof.
  induction os as [|o os IH]; intros w.
  - simpl. split; [apply info_stable_refl|].
    exists []. rewrite app_nil_r. split; [reflexivity | constructor].
  - rewrite ops_cons. destruct (op_step o w) as (Hi & new & Ht & Hb).
    destruct (op o w) as [u w1|p w1]; simpl in Hi, Ht.
    + destruct (IH w1) as (Hi' & new' & Ht' & Hb').
      split; [now apply (info_stable_trans w w1)|].
      exists (new ++ new'). rewrite Ht', Ht, <- app_assoc. split; [reflexivity|].
      unfold transport_calls in *. rewrite omap_app. now apply Forall_app.
    + split; [exact Hi|]. eauto.
Qed.

(** X12. Through any program of the package's operations (creating
    queues, registering handlers, enqueueing, flushing, orders through
    units), returning or cut short by a panic, no queue is lost and no queue
    changes the transport it was created with. *)
Theorem ops_keep_info (os : list Op) w l q :
  heap w !! l = Some q ->
  exists q', heap (outcome_world (ops os w)) !! l = Some q' /\ info q' = info q.
Proof. intros Hq. now apply (ops_steps os w). Qed.

(** X13. Through any such program the transport is never handed an empty
    batch: if every batch in the trace has a command before the program, so
    has every batch after it. *)
Theorem ops_keep_batches_nonempty (os : list Op) w :
  batches_nonempty w -> batches_nonempty (outcome_world (ops os w)).
Proof.
  unfold batches_nonempty. intros Hw.
  destruct (ops_steps os w) as (_ & new & Ht & Hb).
  rewrite Ht. unfold transport_calls in *. rewrite omap_app. now apply Forall_app.
Qed.

End Extras.

(** ** The theorems at work on the concrete bot *)

Section Examples.
Import demo.
Open Scope Z_scope.

(** The scenario of the specification: enqueue chat "gg", flush, the game
    answers success. *)
Example flush_scenario_gg :
  (Chat bot0 "gg";; Send bot0) (world0 []) =
    Returned tt (mkWorld {[ 1%positive := mkActions tt [] None ]} (mkExt [] [])
                   [EvSendActions tt [chat "gg"] [1]]).
Proof. vm_compute. reflexivity. Qed.

(** A transport that answers with more results than the batch had commands
    makes the loop index past the batch. *)
Example Send_past_the_batch_panics :
  Send bot0 (world3 (Some (report "h")) [[1; 1; 1; 2]]) =
    Panicked (IndexOutOfRange 3 3)
      (mkWorld {[ 1%positive := queue3 (Some (report "h")) ]} (mkExt [] [])
         [EvSendActions tt [chat "a"; chat "b"; chat "c"] [1; 1; 1; 2]]).
Proof. vm_compute. reflexivity. Qed.

(** C1 as stated fails: four enqueue calls on an empty queue, one of them an
    order on a group without units, leave three commands pending, not four. *)
Lemma enqueue_count_counterexample :
  pending bot0 (world0 []) = Some [] /\
  length four_calls = 4%nat /\
  calls bot0 four_calls (world0 []) = Returned tt world_after_four /\
  pending bot0 world_after_four = Some three_commands /\
  length three_commands = 3%nat /\
  ~ (exists p, pending bot0 world_after_four = Some p /\ length p = length four_calls).
Proof.
  split; [reflexivity|]. split; [reflexivity|].
  split; [vm_compute; reflexivity|].
  split; [reflexivity|]. split; [reflexivity|].
  intros (p & Hp & Hlen). vm_compute in Hp. injection Hp as <-. discriminate Hlen.
Qed.

(** C1 (as amended) on the four calls: three commands are pending, and the
    flush hands these three to the transport. *)
Lemma enqueue_then_flush_witness :
  heap (world0 [[1; 2; 1]]) !! 1%positive = Some queue0 /\
  actions queue0 = [] /\
  exists w',
    calls bot0 four_calls (world0 [[1; 2; 1]]) = Returned tt w' /\
    pending bot0 w' = Some three_commands /\
    exists new,
      trace (outcome_world (Send bot0 w')) = trace w' ++ new /\
      sent_commands new = three_commands.
Proof.
  split; [reflexivity|]. split; [reflexivity|].
  destruct (enqueue_then_flush four_calls
              (world0 [[1; 2; 1]]) 1%positive queue0 eq_refl eq_refl)
    as (w' & sent & Hcalls & Hsent & Hpending & _ & _ & new & Htrace & Hnew & _).
  exists w'. unfold bot0. split; [exact Hcalls|].
  split; [rewrite Hpending, Hsent; reflexivity|].
  exists new. split; [exact Htrace|]. rewrite Hnew, Hsent. reflexivity.
Defined.


(** C3 on the same flush: it returns and the queue is empty. *)
Lemma Send_empties_queue_witness :
  heap world_h !! 1%positive = Some queue_h /\
  (length (SendActions (info queue_h) (actions queue_h) (ext world_h)).1
     <= length (actions queue_h))%nat /\
  exists w', Send bot0 world_h = Returned tt w' /\ pending bot0 w' = Some [].
Proof.
  assert (Hlen : (length (SendActions (info queue_h) (actions queue_h) (ext world_h)).1
                    <= length (actions queue_h))%nat) by (vm_compute; lia).
  split; [reflexivity|]. split; [exact Hlen|].
  destruct (Send_empties_queue world_h 1%positive queue_h eq_refl) as [_ Hret].
  exact (Hret (or_introl Hlen)).
Defined.

(** C4 on the empty queue: the flush changes nothing. *)
Lemma Send_empty_noop_witness :
  pending bot0 (world0 [[2]]) = Some [] /\
  Send bot0 (world0 [[2]]) = Returned tt (world0 [[2]]).
Proof.
  split; [reflexivity|].
  destruct (Send_empty_noop bot0 (world0 [[2]])) as [Hnoop _].
  apply Hnoop. reflexivity.
Defined.

(** C5 on an order with a unit target for the group without units. *)
Lemma empty_unit_order_noop_witness :
  empty_order (CallUnitsOrderTarget no_units 5 unit7) = true /\
  call bot0 (CallUnitsOrderTarget no_units 5 unit7) world_n = Returned tt world_n.
Proof.
  split; [reflexivity|].
  destruct (empty_unit_order_noop bot0 5 unit7 None world_n) as (_ & _ & _ & Hcall).
  apply Hcall. reflexivity.
Defined.

(** C6 on three chats, no handler and two failures: the flush returns and
    reports nothing; once a handler is registered the failures go to it. *)
Lemma handler_default_and_replacement_witness :
  heap world_n !! 1%positive = Some queue_n /\
  actions queue_n ≠ [] /\
  SendActions (info queue_n) (actions queue_n) (ext world_n) = ([2; 1; 3], mkExt [] []) /\
  errorHandler queue_n = None /\
  (length [2; 1; 3] <= length (actions queue_n))%nat /\
  (exists w',
     Send bot0 world_n = Returned tt w' /\ ext w' = mkExt [] [] /\
     trace w' = [EvSendActions tt [chat "a"; chat "b"; chat "c"] [2; 1; 3]]) /\
  (exists w1 w2,
     OnActionError bot0 (Some (report "new")) world_n = Returned tt w1 /\
     Send bot0 w1 = Returned tt w2 /\
     ext w2 = mkExt [] [("new"%string, 2, chat "a"); ("new"%string, 3, chat "c")]).
Proof.
  assert (Hne : actions queue_n ≠ []) by discriminate.
  assert (Hlen : (length [2; 1; 3] <= length (actions queue_n))%nat) by (vm_compute; lia).
  split; [reflexivity|]. split; [exact Hne|]. split; [reflexivity|].
  split; [reflexivity|]. split; [exact Hlen|].
  destruct (handler_default_and_replacement world_n 1%positive queue_n tt
              (Some (report "new")) (report "new") [2; 1; 3] (mkExt [] [])
              eq_refl Hne eq_refl)
    as (_ & Hnone & _ & Hnew).
  split.
  - destruct (Hnone eq_refl) as (w' & Hs & He & Ht). exists w'. repeat split; assumption.
  - destruct (Hnew Hlen) as (w1 & w2 & Hset & Hs & He & _).
    exists w1, w2. split; [exact Hset|]. split; [exact Hs|]. rewrite He. reflexivity.
Defined.



(** C10 on the nil unit and on the group without units. *)
Lemma degenerate_receiver_noop_witness :
  IsNil nil_unit = true /\
  Units_raw no_units = [] /\
  Unit_OrderTarget nil_unit 5 unit7 world_n = Returned tt world_n /\
  Units_OrderPos no_units 5 pos34 world_n = Returned tt world_n.
Proof.
  split; [reflexivity|]. split; [reflexivity|].
  destruct (degenerate_receiver_noop nil_unit no_units 5 unit7 pos34 world_n)
    as [Hunit Hunits].
  destruct (Hunit eq_refl) as (_ & Ht & _).
  destruct (Hunits eq_refl) as (_ & _ & Hp).
  split; [exact Ht | exact Hp].
Defined.

(** Replacement at work: with handler "old" registered, registering "new"
    and flushing reports the failures under "new" only. *)
Example OnActionError_replaces :
  exists w',
    (OnActionError bot0 (Some (report "new"));; Send bot0)
      (world3 (Some (report "old")) [[2; 1; 3]]) = Returned tt w' /\
    reported (ext w') = [("new"%string, 2, chat "a"); ("new"%string, 3, chat "c")].
Proof. eexists. split; [vm_compute; reflexivity | reflexivity]. Qed.

(** X1 on the world with three chats pending at address 1. *)
Lemma NewActions_fresh_witness :
  exists l w',
    NewActions tt world_n = Returned (Some l) w' /\
    heap w' !! 1%positive = heap world_n !! 1%positive /\
    pending (Some l) w' = Some [].
Proof.
  destruct (NewActions_fresh (AI := agent) tt world_n)
    as (l & w' & Hnew & Hfree & Hq & Hother & _).
  exists l, w'. split; [exact Hnew|]. split.
  - apply Hother. intros E. subst l. vm_compute in Hfree. discriminate Hfree.
  - unfold pending. simpl. now rewrite Hq.
Defined.

(** X2 on three chats of which the game fails the first and the third. *)
Lemma LogActionErrors_logs_witness :
  heap world_n !! 1%positive = Some queue_n /\
  actions queue_n ≠ [] /\
  SendActions (info queue_n) (actions queue_n) (ext world_n) = ([2; 1; 3], mkExt [] []) /\
  exists w1,
    LogActionErrors bot0 world_n = Returned tt w1 /\
    ext (outcome_world (Send bot0 w1)) =
      mkExt [] [("ActionError: "%string, 2, chat "a"); ("ActionError: "%string, 3, chat "c")].
Proof.
  assert (Hne : actions queue_n ≠ []) by discriminate.
  split; [reflexivity|]. split; [exact Hne|]. split; [reflexivity|].
  destruct (LogActionErrors_logs world_n 1%positive queue_n [2; 1; 3] (mkExt [] [])
              eq_refl Hne eq_refl) as (w1 & Hlog & _ & _ & _ & Hext & _).
  exists w1. split; [exact Hlog|]. unfold bot0. rewrite Hext. reflexivity.
Defined.


(** X5 on three chats and a game that answers with no result. *)
Lemma Send_no_results_witness :
  heap world_silent !! 1%positive = Some queue_h /\
  actions queue_h ≠ [] /\
  SendActions (info queue_h) (actions queue_h) (ext world_silent) = ([], mkExt [] []) /\
  exists w',
    Send bot0 world_silent = Returned tt w' /\
    pending bot0 w' = Some [] /\ reported (ext w') = [].
Proof.
  assert (Hne : actions queue_h ≠ []) by discriminate.
  split; [reflexivity|]. split; [exact Hne|]. split; [reflexivity|].
  eexists. split.
  - exact (Send_no_results world_silent 1%positive queue_h (mkExt [] []) eq_refl Hne eq_refl).
  - split; reflexivity.
Defined.

(** X6 on the four calls after three chats: six commands are pending. *)
Lemma enqueue_appends_witness :
  heap world_n !! 1%positive = Some queue_n /\
  exists w',
    calls bot0 four_calls world_n = Returned tt w' /\
    pending bot0 w' = Some ([chat "a"; chat "b"; chat "c"] ++ three_commands).
Proof.
  split; [reflexivity|].
  destruct (enqueue_appends four_calls world_n 1%positive queue_n eq_refl)
    as (w' & Hcalls & Hp & _).
  exists w'. split; [exact Hcalls|]. unfold bot0. rewrite Hp. reflexivity.
Defined.


(** X9 on the nil unit: the queue's own order method appends a command. *)
Lemma UnitOrder_always_appends_witness :
  IsNil nil_unit = true /\
  heap world_n !! 1%positive = Some queue_n /\
  exists w',
    UnitOrder bot0 nil_unit 5 world_n = Returned tt w' /\
    pending bot0 w' =
      Some [chat "a"; chat "b"; chat "c"; order_command [0%N] 5 None].
Proof.
  split; [reflexivity|]. split; [reflexivity|].
  destruct (UnitOrder_always_appends nil_unit unit7 pos34 5 world_n 1%positive queue_n eq_refl)
    as (Ho & _ & _).
  eexists. split; [exact Ho | reflexivity].
Defined.

(** X10 on the unit with tag 7, whose context points to the queue at 1. *)
Lemma Unit_Order_nonnil_witness :
  IsNil unit7 = false /\
  Unit_ctx unit7 = ctx0 /\
  heap world_n !! 1%positive = Some queue_n /\
  exists w',
    Unit_Order unit7 5 world_n = Returned tt w' /\
    pending bot0 w' =
      Some [chat "a"; chat "b"; chat "c"; order_command [7%N] 5 None].
Proof.
  split; [reflexivity|]. split; [reflexivity|]. split; [reflexivity|].
  destruct (Unit_Order_nonnil unit7 unit7 pos34 5 world_n eq_refl) as (_ & _ & Happ).
  destruct (Happ {| bot := bot0 |} 1%positive queue_n eq_refl eq_refl eq_refl) as (Ho & _ & _).
  eexists. split; [exact Ho | reflexivity].
Defined.


(** X7 on the world with two queues: flushing the first leaves the second
    as it was. *)
Lemma Send_frame_witness :
  bot0 ≠ Some 2%positive /\
  heap (outcome_world (Send bot0 world_two)) !! 2%positive = Some queue_n.
Proof.
  assert (Hne : bot0 ≠ Some 2%positive) by discriminate.
  split; [exact Hne|].
  destruct (Send_frame bot0 world_two) as (_ & Hother & _).
  rewrite (Hother 2%positive Hne). reflexivity.
Defined.

(** X12 and X13 on the program: the first queue is still there with its
    transport, and no batch in the trace is empty. *)
Lemma ops_keep_info_witness :
  heap (world0 [[1]; [2]]) !! 1%positive = Some queue0 /\
  exists q', heap (outcome_world (ops program (world0 [[1]; [2]]))) !! 1%positive = Some q' /\
             info q' = info queue0.
Proof.
  split; [reflexivity|].
  exact (ops_keep_info program (world0 [[1]; [2]]) 1%positive queue0 eq_refl).
Defined.

Lemma ops_keep_batches_nonempty_witness :
  batches_nonempty (world0 [[1]; [2]]) /\
  batches_nonempty (outcome_world (ops program (world0 [[1]; [2]]))).
Proof.
  assert (H0 : batches_nonempty (world0 [[1]; [2]])) by constructor.
  split; [exact H0|].
  exact (ops_keep_batches_nonempty program (world0 [[1]; [2]]) H0).
Defined.

(** The program at work: three batches reach the transport, the last
    flush finding nothing to send. *)
Example program_batches :
  transport_calls (trace (outcome_world (ops program (world0 [[1]; [2]])))) =
    [[chat "a"]; [chat_command ActionChat_Team "b"]; [order_command [7%N] 5 None]].
Proof. vm_compute. reflexivity. Qed.

End Examples.
